(** * CrossDown core: an embedding of [src/CrossDown/Core.py]

    The development follows the Python module top to bottom: Python strings,
    the fragment of the [re] engine the module relies on, the mutable
    [xml.etree.ElementTree] store, then the classes [ID], [Syllabus],
    [DialogueParser], [DialogueBlock] and [InlineCode] and the function
    [dialogue_formatter].  Theorems come after all definitions. *)

From Stdlib Require Import Ascii String List Arith Lia Bool DecimalString
  NArith ZArith.
From stdpp Require Import base list gmap strings.

Local Open Scope string_scope.
Local Open Scope list_scope.

(** ** Python strings

    A [str] is a sequence of Unicode code points; a character is its code
    point, a number.  [ord] is Python's [ord] on the ASCII characters, in
    which the literals of the module are written, and [py] gives the [str]
    of an ASCII literal. *)

Abbreviation char := N.
Abbreviation str := (list char).

Definition ord (a : ascii) : char := N_of_ascii a.
Arguments ord : simpl never.

Definition py (s : string) : str := map ord (list_ascii_of_string s).

Definition newline : char := 10%N.
Definition quote : char := 34%N.

(** [str(n)] for a non-negative integer, as an f-string renders it. *)
Definition str_of_nat (n : nat) : str :=
  py (NilEmpty.string_of_uint (Nat.to_uint n)).

(** [s.split(sep)] for a one-character separator: never empty, one more
    piece than there are separators. *)
Fixpoint split (sep : char) (s : str) : list str :=
  match s with
  | [] => [[]]
  | x :: s' =>
      if decide (x = sep) then [] :: split sep s'
      else match split sep s' with
           | piece :: rest => (x :: piece) :: rest
           | [] => [[x]]
           end
  end.


Fixpoint takeWhile (p : char -> bool) (s : str) : str :=
  match s with
  | x :: s' => if p x then x :: takeWhile p s' else []
  | [] => []
  end.

Fixpoint dropWhile (p : char -> bool) (s : str) : str :=
  match s with
  | x :: s' => if p x then dropWhile p s' else s
  | [] => []
  end.

(** Python values that end up in an attribute or in [text]. *)
Inductive pyval : Type :=
| PNone
| PStr (s : str)
| PInt (z : Z)
| PBool (b : bool).

Inductive exn : Type :=
| AttributeError
| IndexError
| TypeError.

Inductive result (A : Type) : Type :=
| Ok (a : A)
| Raise (e : exn).
Arguments Ok {A} a.
Arguments Raise {A} e.

(** ** The regular expressions of the module

    Python's [re] is a backtracking matcher.  [run r s c] lists every way
    [r] can match a prefix of [s], in the order the engine tries them; each
    entry is the matched text, the rest of the input and the capture table.
    [re.match] is the first entry. *)
Module Re.

Inductive regex : Type :=
| Eps
| Chr (p : char -> bool)
| Cat (r1 r2 : regex)
| Alt (r1 r2 : regex)
| Star (greedy : bool) (r : regex)
| Grp (n : nat) (r : regex).

(** [r+], [r+?] and [r?]. *)
Definition Plus (greedy : bool) (r : regex) : regex := Cat r (Star greedy r).
Definition Opt (r : regex) : regex := Alt r Eps.

Definition caps := nat -> option str.
Definition no_caps : caps := fun _ => None.
Definition set_cap (n : nat) (m : str) (c : caps) : caps :=
  fun i => if Nat.eqb i n then Some m else c i.

Definition hit : Type := str * str * caps.

(** Repetition.  An iteration that consumes nothing ends the loop, as in
    the engine; [n] bounds the number of iterations and is always taken
    larger than the input. *)
Fixpoint star (body : str -> caps -> list hit) (greedy : bool) (n : nat)
    (s : str) (c : caps) : list hit :=
  match n with
  | 0 => [([], s, c)]
  | S n' =>
      let more :=
        '(m1, s1, c1) ← body s c;
        match m1 with
        | [] => []
        | _ => '(m2, s2, c2) ← star body greedy n' s1 c1; [(m1 ++ m2, s2, c2)]
        end in
      if greedy then more ++ [([], s, c)] else ([], s, c) :: more
  end.

Fixpoint run (r : regex) (s : str) (c : caps) {struct r} : list hit :=
  match r with
  | Eps => [([], s, c)]
  | Chr p =>
      match s with
      | x :: s' => if p x then [([x], s', c)] else []
      | [] => []
      end
  | Cat r1 r2 =>
      '(m1, s1, c1) ← run r1 s c;
      '(m2, s2, c2) ← run r2 s1 c1;
      [(m1 ++ m2, s2, c2)]
  | Alt r1 r2 => run r1 s c ++ run r2 s c
  | Star greedy r' => star (run r') greedy (S (length s)) s c
  | Grp n r' => '(m, s', c') ← run r' s c; [(m, s', set_cap n m c')]
  end.

(** The highest group number of a pattern: the arity of [groups()]. *)
Fixpoint ngroups (r : regex) : nat :=
  match r with
  | Eps | Chr _ => 0
  | Cat r1 r2 | Alt r1 r2 => Nat.max (ngroups r1) (ngroups r2)
  | Star _ r' => ngroups r'
  | Grp n r' => Nat.max n (ngroups r')
  end.

(** A match object: group 0 and the numbered groups; a group that took no
    part in the match is [None]. *)
Record Match : Type := mkMatch {
  m_start : nat;
  whole : str;
  m_groups : list (option str)
}.

Definition m_end (m : Match) : nat := m_start m + length (whole m).

(** [m.group(i)]: [IndexError] beyond the pattern's groups. *)
Definition group (m : Match) (i : nat) : result (option str) :=
  match i with
  | 0 => Ok (Some (whole m))
  | S j => match m_groups m !! j with
           | Some g => Ok g
           | None => Raise IndexError
           end
  end.

(** [m.groups()]. *)
Definition groups (m : Match) : list (option str) := m_groups m.

(** [re.match(r, s)]: anchored at the start, first way that succeeds. *)
Definition re_match (r : regex) (s : str) : option Match :=
  match run r s no_caps with
  | (m, _, c) :: _ => Some (mkMatch 0 m (map c (seq 1 (ngroups r))))
  | [] => None
  end.

(** Character classes of a [str] pattern.  [.] takes every character but
    the line break.  [\s] is the Unicode white space and [\d] the Unicode
    decimal digits (category Nd): the classes are given by their ranges of
    code points, [\d] as in the Unicode database 14.0 of CPython 3.11. *)
Definition in_ranges (rs : list (N * N)) (x : char) : bool :=
  existsb (fun '(lo, hi) => (lo <=? x)%N && (x <=? hi)%N) rs.

Definition space_ranges : list (N * N) :=
  [ (0x9, 0xD); (0x1C, 0x20); (0x85, 0x85); (0xA0, 0xA0);
    (0x1680, 0x1680); (0x2000, 0x200A); (0x2028, 0x2029); (0x202F, 0x202F);
    (0x205F, 0x205F); (0x3000, 0x3000) ]%N.

Definition digit_ranges : list (N * N) :=
  [ (0x30, 0x39); (0x660, 0x669); (0x6F0, 0x6F9); (0x7C0, 0x7C9);
    (0x966, 0x96F); (0x9E6, 0x9EF); (0xA66, 0xA6F); (0xAE6, 0xAEF);
    (0xB66, 0xB6F); (0xBE6, 0xBEF); (0xC66, 0xC6F); (0xCE6, 0xCEF);
    (0xD66, 0xD6F); (0xDE6, 0xDEF); (0xE50, 0xE59); (0xED0, 0xED9);
    (0xF20, 0xF29); (0x1040, 0x1049); (0x1090, 0x1099); (0x17E0, 0x17E9);
    (0x1810, 0x1819); (0x1946, 0x194F); (0x19D0, 0x19D9); (0x1A80, 0x1A89);
    (0x1A90, 0x1A99); (0x1B50, 0x1B59); (0x1BB0, 0x1BB9); (0x1C40, 0x1C49);
    (0x1C50, 0x1C59); (0xA620, 0xA629); (0xA8D0, 0xA8D9); (0xA900, 0xA909);
    (0xA9D0, 0xA9D9); (0xA9F0, 0xA9F9); (0xAA50, 0xAA59); (0xABF0, 0xABF9);
    (0xFF10, 0xFF19); (0x104A0, 0x104A9); (0x10D30, 0x10D39); (0x11066, 0x1106F);
    (0x110F0, 0x110F9); (0x11136, 0x1113F); (0x111D0, 0x111D9); (0x112F0, 0x112F9);
    (0x11450, 0x11459); (0x114D0, 0x114D9); (0x11650, 0x11659); (0x116C0, 0x116C9);
    (0x11730, 0x11739); (0x118E0, 0x118E9); (0x11950, 0x11959); (0x11C50, 0x11C59);
    (0x11D50, 0x11D59); (0x11DA0, 0x11DA9); (0x16A60, 0x16A69); (0x16AC0, 0x16AC9);
    (0x16B50, 0x16B59); (0x1D7CE, 0x1D7FF); (0x1E140, 0x1E149); (0x1E2F0, 0x1E2F9);
    (0x1E950, 0x1E959); (0x1FBF0, 0x1FBF9) ]%N.

Definition any (x : char) : bool := negb (N.eqb x newline).
Definition lit (a : char) (x : char) : bool := N.eqb x a.
Definition digit (x : char) : bool := in_ranges digit_ranges x.
Definition space (x : char) : bool := in_ranges space_ranges x.
Definition angle (x : char) : bool := lit (ord "<") x || lit (ord ">") x.
Definition sigil (x : char) : bool := lit (ord "#") x || lit (ord "-") x.

Arguments digit : simpl never.
Arguments space : simpl never.

End Re.
Import Re.

(** [pattern.search(s)], as the host applies an inline pattern: the first
    position of [s] from which the pattern matches; [pos] counts the
    characters already passed. *)
Fixpoint search_from (r : regex) (pos : nat) (s : str) : option Match :=
  match Re.run r s no_caps with
  | (m, _, c) :: _ => Some (mkMatch pos m (map c (seq 1 (ngroups r))))
  | [] =>
      match s with
      | [] => None
      | _ :: s' => search_from r (S pos) s'
      end
  end.

Definition re_search (r : regex) (s : str) : option Match := search_from r 0 s.

(** ** The element store

    [xml.etree.ElementTree] elements are mutable objects held by reference:
    a child attached to its parent is still changed through its own
    reference.  The store is the list of all elements created so far and a
    reference is an index into it.  References are always live in Python;
    on an index outside the store the operations change nothing. *)
Module ET.

Abbreviation ref := nat.

Record Element : Type := mkElement {
  tag : str;
  attrib : list (str * pyval);
  text : option str;
  children : list ref
}.

Abbreviation heap := (list Element).

Definition M (A : Type) : Type := heap -> result (A * heap).

Definition ret {A} (a : A) : M A := fun h => Ok (a, h).

Definition bind {A B} (m : M A) (f : A -> M B) : M B :=
  fun h => match m h with
           | Ok (a, h') => f a h'
           | Raise e => Raise e
           end.

Definition raise {A} (e : exn) : M A := fun _ => Raise e.

Definition lift {A} (r : result A) : M A :=
  fun h => match r with Ok a => Ok (a, h) | Raise e => Raise e end.

Definition fresh (tg : str) : Element := mkElement tg [] None [].

Definition add_child (r : ref) (e : Element) : Element :=
  mkElement (tag e) (attrib e) (text e) (children e ++ [r]).

(** A Python dict keeps the position of a key that is assigned again. *)
Fixpoint assoc_set (k : str) (v : pyval) (l : list (str * pyval))
    : list (str * pyval) :=
  match l with
  | [] => [(k, v)]
  | (k', v') :: l' =>
      if decide (k' = k) then (k, v) :: l' else (k', v') :: assoc_set k v l'
  end.

Definition set_attr (k : str) (v : pyval) (e : Element) : Element :=
  mkElement (tag e) (assoc_set k v (attrib e)) (text e) (children e).

Definition set_text (t : option str) (e : Element) : Element :=
  mkElement (tag e) (attrib e) t (children e).

(** [Element(tag)] *)
Definition Element_new (tg : str) : M ref :=
  fun h => Ok (length h, h ++ [fresh tg]).

(** [SubElement(parent, tag)] *)
Definition SubElement (parent : ref) (tg : str) : M ref :=
  fun h => Ok (length h, alter (add_child (length h)) parent h ++ [fresh tg]).

(** [e.set(key, value)] *)
Definition set (e : ref) (k : str) (v : pyval) : M unit :=
  fun h => Ok (tt, alter (set_attr k v) e h).

(** [e.text = t] *)
Definition assign_text (e : ref) (t : option str) : M unit :=
  fun h => Ok (tt, alter (set_text t) e h).

(** [e.text] *)
Definition read_text (e : ref) : M (option str) :=
  fun h => Ok (match h !! e with Some el => text el | None => None end, h).

(** The tree below a reference, for reading off a result. *)
#[warnings="-register-all"]
Inductive tree : Type :=
| Node (tg : str) (at_ : list (str * pyval)) (tx : option str) (kids : list tree).

Fixpoint reify (fuel : nat) (h : heap) (r : ref) : option tree :=
  match fuel with
  | 0 => None
  | S fuel' =>
      match h !! r with
      | Some e =>
          match mapM (reify fuel' h) (children e) with
          | Some kids => Some (Node (tag e) (attrib e) (text e) kids)
          | None => None
          end
      | None => None
      end
  end.

End ET.
Import ET.

Notation "x <- m ;; k" := (ET.bind m (fun x => k))
  (at level 100, m at next level, right associativity).
Notation "m ;;; k" := (ET.bind m (fun _ => k))
  (at level 100, right associativity).

(** The value of an optional string as an attribute value. *)
Definition pyval_of (o : option str) : pyval :=
  match o with Some s => PStr s | None => PNone end.

(** An operation that needs a string and is given [None]. *)
Definition need_str (e : exn) (o : option str) : M str :=
  match o with Some s => ret s | None => raise e end.

(** ** class ID(InlineProcessor) *)
Module ID.

Record t : Type := mk {
  pattern : regex;
  tag : str;
  property : str;
  value : pyval          (* [None] when the argument is left out *)
}.

Definition handleMatch (self : t) (m : Match) (data : str)
    : M (ref * nat * nat) :=
  tag <- Element_new (tag self);;
  g1 <- lift (group m 1);;
  assign_text tag g1;;;
  v <- match value self with
       | PNone => g2 <- lift (group m 2);; ret (pyval_of g2)
       | other => ret other
       end;;
  set tag (property self) v;;;
  ret (tag, m_start m, m_end m).

End ID.

(** The inline rule [hide] that [BasicExtension] registers: a bracketed
    text, a hyphen, a parenthesised text; the host compiles inline patterns
    with [DOTALL], so [.] takes any character there. *)
Definition hide_re : regex :=
  Cat (Chr (lit (ord "[")))
    (Cat (Grp 1 (Star false (Chr (fun _ => true))))
      (Cat (Chr (lit (ord "]"))) (Cat (Chr (lit (ord "-"))) (Cat (Chr (lit (ord "(")))
        (Cat (Grp 2 (Star false (Chr (fun _ => true)))) (Chr (lit (ord ")")))))))).

Definition hide : ID.t := ID.mk hide_re (py "span") (py "title") PNone.

(** ** class Simple(InlineProcessor) *)
Module Simple.

Record t : Type := mk {
  pattern : regex;
  tag : str
}.

Definition handleMatch (self : t) (m : Match) (data : str)
    : M (ref * nat * nat) :=
  tag <- Element_new (tag self);;
  g1 <- lift (group m 1);;
  assign_text tag g1;;;
  ret (tag, m_start m, m_end m).

End Simple.

(** ** class Nest(InlineProcessor) *)
Module Nest.

Record t : Type := mk {
  pattern : regex;
  outer_tag : str;
  inner_tag : str
}.

Definition handleMatch (self : t) (m : Match) (data : str)
    : M (ref * nat * nat) :=
  outer_tag <- Element_new (outer_tag self);;
  inner_tag <- SubElement outer_tag (inner_tag self);;
  g1 <- lift (group m 1);;
  assign_text outer_tag g1;;;
  g2 <- lift (group m 2);;
  assign_text inner_tag g2;;;
  ret (outer_tag, m_start m, m_end m).

End Nest.

(** The inline rule [up] that [BasicExtension] registers: a bracketed
    text, a caret, a parenthesised text, compiled with [DOTALL] like
    [hide]. *)
Definition up_re : regex :=
  Cat (Chr (lit (ord "[")))
    (Cat (Grp 1 (Star false (Chr (fun _ => true))))
      (Cat (Chr (lit (ord "]"))) (Cat (Chr (lit (ord "^"))) (Cat (Chr (lit (ord "(")))
        (Cat (Grp 2 (Star false (Chr (fun _ => true)))) (Chr (lit (ord ")")))))))).

Definition up : Nest.t := Nest.mk up_re (py "ruby") (py "rt").

(** ** class Syllabus(BlockProcessor) *)
Module Syllabus.

(** The pattern [syllabus_re]: group 1 is [\d+] followed by any number of
    group 2, [\.\d+]; then [\s+]; then group 3, [.*]. *)
Definition syllabus_re : regex :=
  Cat (Grp 1 (Cat (Plus true (Chr digit))
                  (Star true (Grp 2 (Cat (Chr (lit (ord "."))) (Plus true (Chr digit)))))))
      (Cat (Plus true (Chr space)) (Grp 3 (Star true (Chr any)))).

Definition test (parent : ref) (block : str) : option Match :=
  re_match syllabus_re block.

(** [blocks] is the host's list of pending blocks, changed in place; the
    function returns it next to the return value. *)
Definition run (parent : ref) (blocks : list str) : M (bool * list str) :=
  block0 <- match blocks with b :: _ => ret b | [] => raise IndexError end;;
  syllabus <- match re_match syllabus_re block0 with
              | Some m => ret m
              | None => raise AttributeError
              end;;
  g1 <- lift (group syllabus 1);;
  d <- need_str AttributeError g1;;
  header <- SubElement parent (py "h" ++ str_of_nat (length (split (ord ".") d)));;
  set header (py "id") (pyval_of g1);;;
  g3 <- lift (group syllabus 3);;
  title <- need_str TypeError g3;;
  assign_text header (Some (d ++ py " " ++ title));;;
  ret (false, <[0 := []]> blocks).

End Syllabus.

(** ** class DialogueParser *)
Module DialogueParser.

(** [direction] and [type_] are [Literal] types: the three direction
    keywords (left, centre, right) and the two kinds (normal, inner
    thought). *)
Inductive direction : Type := Left_ | Center | Right_.
Inductive type_ : Type := Normal | Mental.

Record t : Type := mk {
  dialogue : option str;
  title : ref;
  block : ref;
  box : ref
}.

Definition init (dialogue : option str) (title : option str) (block : ref)
    : M t :=
  title' <- SubElement block (py "div");;
  box <- SubElement block (py "div");;
  ret (mk dialogue title' block box).

(** [(.+?)([<>]+)(.+)] *)
Definition dialogue_re : regex :=
  Cat (Grp 1 (Plus false (Chr any)))
      (Cat (Grp 2 (Plus true (Chr angle))) (Grp 3 (Plus true (Chr any)))).

Definition line (self : t) (direction_ : direction) (charactor : str)
    (text : str) (ty : type_) : M unit :=
  dialogue <- SubElement (box self) (py "div");;
  set dialogue (py "class") (PStr (py "dialog-row"));;;
  left <- SubElement dialogue (py "div");;
  set left (py "class")
    (PStr (py "user-name " ++
           match direction_ with Left_ => py "left" | _ => [] end));;;
  match direction_ with
  | Left_ => assign_text left (Some charactor)
  | _ => ret tt
  end;;;
  middle <- SubElement dialogue (py "div");;
  set middle (py "class") (PStr (py "message-content"));;;
  match ty with
  | Normal => assign_text middle (Some text)
  | Mental =>
      mental <- SubElement middle (py "p");;
      set mental (py "class") (PStr (py "thought"));;;
      assign_text mental (Some text)
  end;;;
  right <- SubElement dialogue (py "div");;
  set right (py "class")
    (PStr (py "user-name " ++
           match direction_ with Right_ => py "right" | _ => [] end));;;
  match direction_ with
  | Right_ => assign_text right (Some charactor)
  | _ => ret tt
  end.

Definition lines (self : t) (line_ : str) : M unit :=
  if decide (line_ = []) then ret tt
  else
    match re_match dialogue_re line_ with
    | None => line self Center [] line_ Normal       (* except AttributeError *)
    | Some m =>
        match groups m with
        | [Some charactor; Some sep; Some dialogue] =>
            if decide (sep = py ">") then line self Left_ charactor dialogue Normal
            else if decide (sep = py "<") then line self Right_ charactor dialogue Normal
            else if decide (sep = py ">>") then line self Left_ charactor dialogue Mental
            else if decide (sep = py "<<") then line self Right_ charactor dialogue Mental
            else ret tt
        | _ => ret tt
        end
    end.

Fixpoint for_lines (self : t) (ls : list str) : M unit :=
  match ls with
  | [] => ret tt
  | l :: ls' => lines self l;;; for_lines self ls'
  end.

Definition call (self : t) : M unit :=
  set (title self) (py "class") (PStr (py "message-title"));;;
  set (box self) (py "class") (PStr (py "dialog-container"));;;
  tx <- read_text (block self);;
  body <- need_str AttributeError tx;;
  for_lines self (split newline body);;;
  _ <- SubElement (block self) (py "br");;
  ret tt.

End DialogueParser.

(** ** class DialogueBlock(Block) *)
Module DialogueBlock.

Definition NAME : str := py "dialogue".

Definition on_create (parent : ref) : M ref := SubElement parent (py "div").

Definition on_markdown : str := py "raw".

Definition on_end (argument : option str) (block : ref) : M unit :=
  tx <- read_text block;;
  parser <- DialogueParser.init tx argument block;;
  DialogueParser.call parser;;;
  assign_text block (Some []).

End DialogueBlock.

(** ** class InlineCode *)
Module InlineCode.

(** The pattern of [__call__]: an optional group 1, [[#-]], then group 2,
    [.*]. *)
Definition inline_re : regex :=
  Cat (Opt (Grp 1 (Chr sigil))) (Grp 2 (Star true (Chr any))).

(** What [__call__] returns: the host's highlighter result, an HTML
    string, or [None] when no [case] applies. *)
Inductive rendered : Type :=
| HostHighlight (src language classname : str)
| Html (s : str)
| NoValue.

Definition call (variable : option (gmap str str))
    (source language css_class : str) : result rendered :=
  if decide (language <> []) then Ok (HostHighlight source language css_class)
  else
    match re_match inline_re source with
    | None => Raise AttributeError
    | Some m =>
        match groups m with
        | [Some flag; Some archer] =>
            if decide (flag = py "#") then
              Ok (Html (py "<span id=" ++ quote :: archer ++ quote :: py ">"
                        ++ archer ++ py "</span>"))
            else if decide (flag = py "-") then
              Ok (Html (py "<a href=#" ++ archer ++ py ">" ++ archer ++ py "</a>"))
            else Ok NoValue
        | [None; Some variable_] =>
            match variable with
            | None => Raise TypeError
            | Some d =>
                match d !! variable_ with
                | Some v =>
                    Ok (Html (py "<code id=" ++ quote :: py "block" ++ quote :: py ">"
                              ++ v ++ py "</code>"))
                | None =>
                    Ok (Html (py "<code id=" ++ quote :: py "block" ++ quote :: py ">"
                              ++ variable_ ++ py "</code>"))
                end
            end
        | _ => Ok NoValue
        end
    end.

End InlineCode.

(** ** def main: the inline formatter it installs

    [main] replaces a [variable] of [None] by the empty dict before it
    builds [InlineCode(variable=variable)]; the conversion itself is the
    host's. *)
Definition main_inline_format (variable : option (gmap str str))
    : str -> str -> str -> result InlineCode.rendered :=
  InlineCode.call (Some (default ∅ variable)).

(** ** def dialogue_formatter and the [custom_fences] table *)






(** ** The callers in the host parser *)
Module Host.

(** A registered block processor: [test] and [run].  [run] answers
    [false] for Python's [False] and [true] for [None] or [True]. *)
Record BlockProcessor : Type := mkBP {
  bp_test : ref -> str -> bool;
  bp_run : ref -> list str -> M (bool * list str)
}.

Definition syllabus : BlockProcessor :=
  mkBP (fun parent block => bool_decide (Syllabus.test parent block <> None))
       Syllabus.run.


(** A [dialogue] block of the Blocks extension: the element is created,
    the raw body is stored as its text ([on_markdown] is [raw]), and
    [on_end] is called. *)
Definition dialogue_block (parent : ref) (argument : option str) (body : str)
    : M ref :=
  block <- DialogueBlock.on_create parent;;
  assign_text block (Some body);;;
  DialogueBlock.on_end argument block;;;
  ret block.

End Host.

(** ** Vocabulary of the statements *)

(** What a pattern matches, without the order of the attempts: [Matches r c
    m c'] says that [r] can match exactly [m], turning the capture table
    [c] into [c']. *)
Inductive Matches : regex -> caps -> str -> caps -> Prop :=
| MEps c : Matches Eps c [] c
| MChr p x c : p x = true -> Matches (Chr p) c [x] c
| MCat r1 r2 c m1 c1 m2 c2 :
    Matches r1 c m1 c1 -> Matches r2 c1 m2 c2 ->
    Matches (Cat r1 r2) c (m1 ++ m2) c2
| MAltL r1 r2 c m c' : Matches r1 c m c' -> Matches (Alt r1 r2) c m c'
| MAltR r1 r2 c m c' : Matches r2 c m c' -> Matches (Alt r1 r2) c m c'
| MStar0 g r c : Matches (Star g r) c [] c
| MStarS g r c m1 c1 m2 c2 :
    m1 <> [] -> Matches r c m1 c1 -> Matches (Star g r) c1 m2 c2 ->
    Matches (Star g r) c (m1 ++ m2) c2
| MGrp n r c m c' : Matches r c m c' -> Matches (Grp n r) c m (set_cap n m c').

(** Every character of [s] is in the class [p]. *)
Definition all_in (p : char -> bool) (s : str) : Prop :=
  Forall (fun x => p x = true) s.

(** No character of [s] is in the class [p]. *)
Definition none_in (p : char -> bool) (s : str) : Prop :=
  Forall (fun x => p x = false) s.

(** [s] does not begin with a character of the class [p]. *)
Definition not_led_by (p : char -> bool) (s : str) : Prop :=
  match s with x :: _ => p x = false | [] => True end.




(** The first line of a block. *)
Definition first_line (block : str) : str := takeWhile any block.


(** The three HTML strings of [InlineCode]. *)
Definition span_html (r : str) : str :=
  py "<span id=" ++ quote :: r ++ quote :: py ">" ++ r ++ py "</span>".
Definition a_html (r : str) : str :=
  py "<a href=#" ++ r ++ py ">" ++ r ++ py "</a>".
Definition code_html (t : str) : str :=
  py "<code id=" ++ quote :: py "block" ++ quote :: py ">" ++ t ++ py "</code>".

(** The dialogue pattern as the specification writes it: the separator,
    group 2, is a run of [<] or a run of [>], where the module has a run of
    either character mixed. *)
Definition spec_dialogue_re : regex :=
  Cat (Grp 1 (Plus false (Chr any)))
      (Cat (Grp 2 (Alt (Plus true (Chr (lit (ord "<")))) (Plus true (Chr (lit (ord ">"))))))
           (Grp 3 (Plus true (Chr any)))).

(** The classification of a dialogue line as the specification states it:
    that of [lines], with the specification's pattern. *)
Definition spec_lines (self : DialogueParser.t) (line_ : str) : M unit :=
  if decide (line_ = []) then ret tt
  else
    match re_match spec_dialogue_re line_ with
    | None => DialogueParser.line self DialogueParser.Center [] line_ DialogueParser.Normal
    | Some m =>
        match groups m with
        | [Some charactor; Some sep; Some dialogue] =>
            if decide (sep = py ">") then
              DialogueParser.line self DialogueParser.Left_ charactor dialogue DialogueParser.Normal
            else if decide (sep = py "<") then
              DialogueParser.line self DialogueParser.Right_ charactor dialogue DialogueParser.Normal
            else if decide (sep = py ">>") then
              DialogueParser.line self DialogueParser.Left_ charactor dialogue DialogueParser.Mental
            else if decide (sep = py "<<") then
              DialogueParser.line self DialogueParser.Right_ charactor dialogue DialogueParser.Mental
            else ret tt
        | _ => ret tt
        end
    end.

(** A turn: the arguments [lines] passes to [line]. *)
Definition turn : Type :=
  DialogueParser.direction * str * str * DialogueParser.type_.

(** The turn of a line, if it has one. *)
Definition turn_of (line_ : str) : option turn :=
  if decide (line_ = []) then None
  else
    match re_match DialogueParser.dialogue_re line_ with
    | None => Some (DialogueParser.Center, [], line_, DialogueParser.Normal)
    | Some m =>
        match groups m with
        | [Some charactor; Some sep; Some dialogue] =>
            if decide (sep = py ">") then
              Some (DialogueParser.Left_, charactor, dialogue, DialogueParser.Normal)
            else if decide (sep = py "<") then
              Some (DialogueParser.Right_, charactor, dialogue, DialogueParser.Normal)
            else if decide (sep = py ">>") then
              Some (DialogueParser.Left_, charactor, dialogue, DialogueParser.Mental)
            else if decide (sep = py "<<") then
              Some (DialogueParser.Right_, charactor, dialogue, DialogueParser.Mental)
            else None
        | _ => None
        end
    end.

(** The turns of a block body, in the order of its lines. *)
Definition turns (body : str) : list turn := omap turn_of (split newline body).

(** The speaker side of a line: not empty, within one line, no [<] or [>]
    after its first character. *)
Definition speaker (a : str) : Prop :=
  a <> [] /\ all_in any a /\ none_in angle (tail a).

(** The utterance side of a line: not empty, within one line, not
    beginning with [<] or [>]. *)
Definition utterance (b : str) : Prop :=
  b <> [] /\ all_in any b /\ not_led_by angle b.

(** Narration: a line that is not empty and has no [<] or [>] after its
    first character. *)
Definition narration (l : str) : Prop :=
  l <> [] /\ all_in any l /\ none_in angle (tail l).

(** A blank line as the specification has it: a line with nothing but
    white space on it, the empty line included. *)
Definition blank (l : str) : bool := forallb space l.

(** The five forms of a body line, each with its turn. *)
Inductive line_form : str -> turn -> Prop :=
| form_left a b : speaker a -> utterance b ->
    line_form (a ++ py ">" ++ b)
      (DialogueParser.Left_, a, b, DialogueParser.Normal)
| form_right a b : speaker a -> utterance b ->
    line_form (a ++ py "<" ++ b)
      (DialogueParser.Right_, a, b, DialogueParser.Normal)
| form_left_thought a b : speaker a -> utterance b ->
    line_form (a ++ py ">>" ++ b)
      (DialogueParser.Left_, a, b, DialogueParser.Mental)
| form_right_thought a b : speaker a -> utterance b ->
    line_form (a ++ py "<<" ++ b)
      (DialogueParser.Right_, a, b, DialogueParser.Mental)
| form_narration l : narration l ->
    line_form l (DialogueParser.Center, [], l, DialogueParser.Normal).

(** The four separators that give a turn. *)
Definition separators : list str := [py ">"; py "<"; py ">>"; py "<<"].



(** What follows group 1 in [dialogue_re], and the attempts on it after a
    given attempt of group 1. *)
Definition after_speaker : regex :=
  Cat (Grp 2 (Plus true (Chr angle))) (Grp 3 (Plus true (Chr any))).

Definition then_after (x : hit) : list hit :=
  let '(m1, s1, c1) := x in
  '(m2, s2, c2) ← Re.run after_speaker s1 c1; [(m1 ++ m2, s2, c2)].

(** Several children attached at once. *)
Definition add_children (rs : list ref) (e : Element) : Element :=
  mkElement (tag e) (attrib e) (text e) (children e ++ rs).

(** The elements [line] creates for a turn when the store holds [n]
    elements: the row, the left name cell, the content cell (with its
    [p] for an inner thought) and the right name cell. *)
Definition name_cell (side : str) (on : bool) (charactor : str) : Element :=
  mkElement (py "div")
    [(py "class", PStr (py "user-name " ++ if on then side else []))]
    (if on then Some charactor else None) [].

Definition is_left (d : DialogueParser.direction) : bool :=
  match d with DialogueParser.Left_ => true | _ => false end.
Definition is_right (d : DialogueParser.direction) : bool :=
  match d with DialogueParser.Right_ => true | _ => false end.

Definition row_nodes (n : nat) (t : turn) : list Element :=
  let '(d, charactor, tx, ty) := t in
  match ty with
  | DialogueParser.Normal =>
      [ mkElement (py "div") [(py "class", PStr (py "dialog-row"))] None
          [n + 1; n + 2; n + 3];
        name_cell (py "left") (is_left d) charactor;
        mkElement (py "div") [(py "class", PStr (py "message-content"))]
          (Some tx) [];
        name_cell (py "right") (is_right d) charactor ]
  | DialogueParser.Mental =>
      [ mkElement (py "div") [(py "class", PStr (py "dialog-row"))] None
          [n + 1; n + 2; n + 4];
        name_cell (py "left") (is_left d) charactor;
        mkElement (py "div") [(py "class", PStr (py "message-content"))]
          None [n + 3];
        mkElement (py "p") [(py "class", PStr (py "thought"))] (Some tx) [];
        name_cell (py "right") (is_right d) charactor ]
  end.

Fixpoint rows_nodes (n : nat) (ts : list turn) : list Element :=
  match ts with
  | [] => []
  | t :: ts' => row_nodes n t ++ rows_nodes (n + length (row_nodes n t)) ts'
  end.

Fixpoint row_refs (n : nat) (ts : list turn) : list ref :=
  match ts with
  | [] => []
  | t :: ts' => n :: row_refs (n + length (row_nodes n t)) ts'
  end.

(** The same as trees. *)
Definition cell_tree (e : Element) : tree :=
  Node (tag e) (attrib e) (text e) [].

Definition row_tree (t : turn) : tree :=
  let '(d, charactor, tx, ty) := t in
  Node (py "div") [(py "class", PStr (py "dialog-row"))] None
    [ cell_tree (name_cell (py "left") (is_left d) charactor);
      match ty with
      | DialogueParser.Normal =>
          Node (py "div") [(py "class", PStr (py "message-content"))] (Some tx) []
      | DialogueParser.Mental =>
          Node (py "div") [(py "class", PStr (py "message-content"))] None
            [Node (py "p") [(py "class", PStr (py "thought"))] (Some tx) []]
      end;
      cell_tree (name_cell (py "right") (is_right d) charactor) ].

(** The block element once [on_end] is through: its text emptied and
    three children attached. *)
Definition ended (rs : list ref) (e : Element) : Element :=
  mkElement (tag e) (attrib e) (Some []) (children e ++ rs).

Definition title_element : Element :=
  mkElement (py "div") [(py "class", PStr (py "message-title"))] None [].

Definition box_element (rows : list ref) : Element :=
  mkElement (py "div") [(py "class", PStr (py "dialog-container"))] None rows.

(** The store [on_end] leaves, for a block [b] of a store [h] whose text is
    [body]: the block changed in place, then the title, the container, the
    elements of the rows and the line break. *)
Definition rendered_store (h : list Element) (b : ref) (body : str)
    : list Element :=
  let n := length h in
  let rows := rows_nodes (n + 2) (turns body) in
  alter (ended [n; n + 1; n + 2 + length rows]) b h
  ++ title_element :: box_element (row_refs (n + 2) (turns body))
  :: rows ++ [fresh (py "br")].

(** The attempts of a repetition that make one iteration or more. *)
Definition more_of (body : str -> caps -> list hit) (g : bool) (n : nat)
    (s : str) (c : caps) : list hit :=
  '(m1, s1, c1) ← body s c;
  match m1 with
  | [] => []
  | _ => '(m2, s2, c2) ← star body g n s1 c1; [(m1 ++ m2, s2, c2)]
  end.

(** The ways a lazy repetition of a class can stop, shortest first. *)
Fixpoint lazy_splits (p : char -> bool) (s : str) : list (str * str) :=
  ([], s) ::
  match s with
  | x :: s' =>
      if p x then map (fun '(m, r) => (x :: m, r)) (lazy_splits p s') else []
  | [] => []
  end.

(** The common shape of [hide_re] and [up_re]: only the character
    between the bracket and the parenthesis differs. *)
Definition bracket_re (mid : char) : regex :=
  Cat (Chr (lit (ord "[")))
    (Cat (Grp 1 (Star false (Chr (fun _ => true))))
      (Cat (Chr (lit (ord "]"))) (Cat (Chr (lit mid)) (Cat (Chr (lit (ord "(")))
        (Cat (Grp 2 (Star false (Chr (fun _ => true)))) (Chr (lit (ord ")")))))))).

(** The text an inline rule of that shape matches. *)
Definition bracketed (mid : char) (v g : str) : str :=
  (ord "[") :: v ++ (ord "]") :: mid :: (ord "(") :: g ++ [(ord ")")].




(** ** The matcher *)
Section ReFacts.

Lemma star_0 body g s c : star body g 0 s c = [([], s, c)].
Proof. reflexivity. Qed.

Lemma star_S body g n s c :
  star body g (S n) s c =
  if g then more_of body g n s c ++ [([], s, c)]
  else ([], s, c) :: more_of body g n s c.
Proof. reflexivity. Qed.

Lemma run_Star g r s c : run (Star g r) s c = star (run r) g (S (length s)) s c.
Proof. reflexivity. Qed.

Local Arguments star : simpl never.

Lemma star_cases body g n s c x :
  x ∈ star body g (S n) s c <-> x = ([], s, c) \/ x ∈ more_of body g n s c.
Proof.
  rewrite star_S. destruct g.
  - rewrite elem_of_app, list_elem_of_singleton. tauto.
  - rewrite elem_of_cons. tauto.
Qed.

Lemma more_of_elem body g n s c x :
  x ∈ more_of body g n s c <->
  exists m1 s1 c1 m2 s2 c2, m1 <> [] /\ (m1, s1, c1) ∈ body s c /\
    (m2, s2, c2) ∈ star body g n s1 c1 /\ x = (m1 ++ m2, s2, c2).
Proof.
  unfold more_of. rewrite list_elem_of_bind. split.
  - intros [[[m1 s1] c1] [H1 H2]].
    destruct m1 as [|y m1]; [by apply elem_of_nil in H1|].
    apply list_elem_of_bind in H1 as [[[m2 s2] c2] [H3 H4]].
    apply list_elem_of_singleton in H3.
    exists (y :: m1), s1, c1, m2, s2, c2. done.
  - intros (m1 & s1 & c1 & m2 & s2 & c2 & Hne & H1 & H2 & ->).
    exists (m1, s1, c1). split; [|done].
    destruct m1; [done|]. apply list_elem_of_bind. exists (m2, s2, c2).
    split; [by apply list_elem_of_singleton | done].
Qed.

Lemma star_sound (body : str -> caps -> list hit) (r : regex) (g : bool) :
  (forall s c m s' c', (m, s', c') ∈ body s c -> s = m ++ s' /\ Matches r c m c') ->
  forall n s c m s' c',
    (m, s', c') ∈ star body g n s c -> s = m ++ s' /\ Matches (Star g r) c m c'.
Proof.
  intros Hbody n. induction n as [|n IH]; intros s c m s' c' Hin.
  - rewrite star_0 in Hin. apply list_elem_of_singleton in Hin.
    injection Hin as -> -> ->. split; [reflexivity | constructor].
  - apply star_cases in Hin as [Hin|Hin].
    + injection Hin as -> -> ->. split; [reflexivity | constructor].
    + apply more_of_elem in Hin
        as (m1 & s1 & c1 & m2 & s2 & c2 & Hne & H1 & H2 & Heq).
      injection Heq as -> -> ->.
      apply Hbody in H1 as [-> HM1]. apply IH in H2 as [-> HM2]. split.
      * apply app_assoc.
      * by apply MStarS with c1.
Qed.

Lemma run_sound r : forall s c m s' c',
  (m, s', c') ∈ run r s c -> s = m ++ s' /\ Matches r c m c'.
Proof.
  induction r as [|p|r1 IH1 r2 IH2|r1 IH1 r2 IH2|g r IH|n r IH];
    intros s c m s' c' Hin; simpl in Hin.
  - apply list_elem_of_singleton in Hin. injection Hin as -> -> ->.
    split; [reflexivity | constructor].
  - destruct s as [|x s]; [by apply elem_of_nil in Hin|].
    destruct (p x) eqn:Hp; [|by apply elem_of_nil in Hin].
    apply list_elem_of_singleton in Hin. injection Hin as -> -> ->.
    split; [reflexivity | by constructor].
  - apply list_elem_of_bind in Hin as [[[m1 s1] c1] [H1 H2]].
    apply list_elem_of_bind in H1 as [[[m2 s2] c2] [H3 H4]].
    apply list_elem_of_singleton in H3. injection H3 as -> -> ->.
    apply IH1 in H2 as [-> HM1]. apply IH2 in H4 as [-> HM2].
    split; [apply app_assoc | by econstructor].
  - apply elem_of_app in Hin as [H|H].
    + apply IH1 in H as [-> HM]. split; [done | by apply MAltL].
    + apply IH2 in H as [-> HM]. split; [done | by apply MAltR].
  - exact (star_sound (run r) r g IH (S (length s)) s c m s' c' Hin).
  - apply list_elem_of_bind in Hin as [[[m1 s1] c1] [H1 H2]].
    apply list_elem_of_singleton in H1. injection H1 as -> -> ->.
    apply IH in H2 as [-> HM]. split; [done | by constructor].
Qed.






Lemma run_Eps s c : run Eps s c = [([], s, c)].
Proof. reflexivity. Qed.

Lemma run_Chr p s c :
  run (Chr p) s c =
  match s with
  | x :: s' => if p x then [([x], s', c)] else []
  | [] => []
  end.
Proof. reflexivity. Qed.

Lemma run_Cat r1 r2 s c :
  run (Cat r1 r2) s c =
  '(m1, s1, c1) ← run r1 s c;
  '(m2, s2, c2) ← run r2 s1 c1; [(m1 ++ m2, s2, c2)].
Proof. reflexivity. Qed.

Lemma run_Alt r1 r2 s c : run (Alt r1 r2) s c = run r1 s c ++ run r2 s c.
Proof. reflexivity. Qed.

Lemma run_Grp n r s c :
  run (Grp n r) s c = '(m, s', c') ← run r s c; [(m, s', set_cap n m c')].
Proof. reflexivity. Qed.

Opaque Re.run Re.star.

(** *** The first attempt that succeeds *)


Lemma head_bind_first {A B} (f : A -> list B) (x : A) (l : list A) (y : B) :
  head (f x) = Some y -> head ((x :: l) ≫= f) = Some y.
Proof. simpl. destruct (f x); [done|]. by intros [= ->]. Qed.

Lemma head_bind_skip {A B} (f : A -> list B) (x : A) (l : list A) :
  f x = [] -> head ((x :: l) ≫= f) = head (l ≫= f).
Proof. simpl. by intros ->. Qed.

Lemma head_bind_cons {A B} (f : A -> list B) (l : list A) (x : A) (y : B) :
  head l = Some x -> head (f x) = Some y -> head (l ≫= f) = Some y.
Proof.
  destruct l as [|x' l]; [done|]. intros [= ->]. apply head_bind_first.
Qed.

(** *** Repetition of a character class *)




Lemma takeWhile_app p a b :
  all_in p a -> not_led_by p b -> takeWhile p (a ++ b) = a.
Proof.
  induction 1 as [|x a Hx _ IH]; intros Hb; simpl.
  - destruct b as [|y b]; [done|]. simpl in *. by rewrite Hb.
  - rewrite Hx. by rewrite IH.
Qed.

Lemma dropWhile_app p a b :
  all_in p a -> not_led_by p b -> dropWhile p (a ++ b) = b.
Proof.
  induction 1 as [|x a Hx _ IH]; intros Hb; simpl.
  - destruct b as [|y b]; [done|]. simpl in *. by rewrite Hb.
  - rewrite Hx. by rewrite IH.
Qed.

(** A greedy repetition of a class first takes all it can. *)
Lemma star_greedy_head p n : forall s c,
  length s < n ->
  head (star (run (Chr p)) true n s c) = Some (takeWhile p s, dropWhile p s, c).
Proof.
  induction n as [|n IH]; intros s c Hn; [lia|].
  rewrite star_S. unfold more_of. rewrite run_Chr.
  destruct s as [|x s]; [done|]. simpl takeWhile. simpl dropWhile.
  destruct (p x) eqn:Hp; [|done]. simpl in Hn. simpl.
  rewrite app_nil_r. specialize (IH s c ltac:(lia)).
  destruct (star (run (Chr p)) true n s c) as [|[[m2 s2] c2] l]; [done|].
  simpl in IH. injection IH as -> -> ->. done.
Qed.

Lemma plus_greedy_head p s c :
  head (run (Plus true (Chr p)) s c) =
  match s with
  | x :: s' =>
      if p x then Some (x :: takeWhile p s', dropWhile p s', c) else None
  | [] => None
  end.
Proof.
  unfold Plus. rewrite run_Cat, run_Chr.
  destruct s as [|x s]; [done|].
  destruct (p x) eqn:Hp; [|done].
  apply head_bind_first. rewrite run_Star.
  pose proof (star_greedy_head p (S (length s)) s c ltac:(lia)) as H.
  destruct (star (run (Chr p)) true (S (length s)) s c) as [|[[m2 s2] c2] l];
    [done|].
  simpl in H. injection H as -> -> ->. done.
Qed.

(** A lazy repetition of a class tries the shortest stop first. *)
Lemma star_lazy_list p n : forall s c,
  length s < n ->
  star (run (Chr p)) false n s c =
  map (fun '(m, r) => (m, r, c)) (lazy_splits p s).
Proof.
  induction n as [|n IH]; intros s c Hn; [lia|].
  rewrite star_S. unfold more_of. rewrite run_Chr.
  destruct s as [|x s]; [done|]. simpl.
  f_equal. destruct (p x) eqn:Hp; [|done]. simpl. rewrite app_nil_r.
  simpl in Hn. rewrite IH by lia. rewrite map_map.
  generalize (lazy_splits p s). intros l.
  induction l as [|[m r] l IHl]; [done|].
  simpl. f_equal. exact IHl.
Qed.

(** *** What the class repetitions match *)

Lemma Matches_star_class g p c m c' :
  Matches (Star g (Chr p)) c m c' -> all_in p m /\ c' = c.
Proof.
  remember (Star g (Chr p)) as r eqn:Hr. intros H.
  induction H as [| | | | | |g' r' c m1 c1 m2 c2 Hne H1 _ H2 IH2|];
    try discriminate.
  - split; [constructor | done].
  - injection Hr as -> ->. destruct (IH2 eq_refl) as [Hall ->].
    inversion H1; subst. split; [|done]. simpl. by constructor.
Qed.

Lemma Matches_plus_class g p c m c' :
  Matches (Plus g (Chr p)) c m c' -> m <> [] /\ all_in p m /\ c' = c.
Proof.
  intros H. inversion H as [| |r1 r2 c0 m1 c1 m2 c2 H1 H2| | | | |]; subst.
  inversion H1; subst. apply Matches_star_class in H2 as [Hall ->].
  split; [done|]. split; [by constructor | done].
Qed.



Lemma head_bind_unit (l : list hit) (F : str -> str -> caps -> hit) :
  head (l ≫= fun '(m, s, c) => [F m s c]) =
  (fun '(m, s, c) => F m s c) <$> head l.
Proof. by destruct l as [|[[m s] c] l]. Qed.

Lemma grp_star_greedy_head n p s c :
  head (run (Grp n (Star true (Chr p))) s c) =
  Some (takeWhile p s, dropWhile p s, set_cap n (takeWhile p s) c).
Proof.
  rewrite run_Grp, run_Star, head_bind_unit.
  by rewrite (star_greedy_head p (S (length s)) s c) by lia.
Qed.

Lemma grp_plus_greedy_head n p s c :
  head (run (Grp n (Plus true (Chr p))) s c) =
  match s with
  | x :: s' =>
      if p x
      then Some (x :: takeWhile p s', dropWhile p s',
                 set_cap n (x :: takeWhile p s') c)
      else None
  | [] => None
  end.
Proof.
  rewrite run_Grp, head_bind_unit, plus_greedy_head.
  destruct s as [|x s]; [done|]. by destruct (p x).
Qed.

End ReFacts.

Opaque Re.run Re.star.

(** ** Strings *)
Section StrFacts.







Lemma any_not_newline l : all_in any l -> newline ∉ l.
Proof.
  intros Hall Hin. unfold all_in in Hall. rewrite Forall_forall in Hall.
  specialize (Hall _ Hin). by vm_compute in Hall.
Qed.

End StrFacts.

(** ** Character classes *)
Section ClassFacts.



Lemma lit_true a x : lit a x = true -> x = a.
Proof. unfold lit. by intros ?%N.eqb_eq. Qed.

Lemma space_not_angle x : space x = true -> angle x = false.
Proof.
  intros Hx. destruct (angle x) eqn:Ha; [|done]. exfalso.
  unfold angle in Ha. apply orb_true_iff in Ha as [Ha|Ha];
    apply lit_true in Ha; subst x; by vm_compute in Hx.
Qed.


End ClassFacts.

(** ** Outline numbers *)
Section SyllabusFacts.








End SyllabusFacts.

(** ** The element store *)
Section StoreFacts.

Lemma alter_fresh (f g : Element -> Element) (x : nat) (h news : heap) :
  alter f (length h) (alter g x h ++ news) = alter g x h ++ alter f 0 news.
Proof.
  rewrite <- (length_alter g h x) at 1.
  rewrite <- (Nat.add_0_r (length (alter g x h))). apply alter_app_r.
Qed.

Lemma alter_grown (f g : Element -> Element) (x k : nat) (h news : heap) :
  alter f (length h + k) (alter g x h ++ news) = alter g x h ++ alter f k news.
Proof. rewrite <- (length_alter g h x) at 1. apply alter_app_r. Qed.

Lemma alter_kept (f g : Element -> Element) (x : nat) (h news : heap) :
  x < length h ->
  alter f x (alter g x h ++ news) = alter (f ∘ g) x h ++ news.
Proof.
  intros Hx. rewrite alter_app_l by (by rewrite length_alter).
  by rewrite list_alter_alter_eq.
Qed.

Lemma lookup_kept (g : Element -> Element) (b : nat) (h news : heap) e :
  h !! b = Some e -> (alter g b h ++ news) !! b = Some (g e).
Proof.
  intros Hb. rewrite lookup_app_l.
  - by rewrite list_lookup_alter_eq, Hb.
  - rewrite length_alter. by apply lookup_lt_Some in Hb.
Qed.

Lemma lookup_grown (P L : heap) k : (P ++ L) !! (length P + k) = L !! k.
Proof. rewrite lookup_app_r by lia. f_equal. lia. Qed.

Lemma lookup_grown_0 (P L : heap) : (P ++ L) !! length P = L !! 0.
Proof. rewrite <- (Nat.add_0_r (length P)). apply lookup_grown. Qed.

Lemma lookup_other (g : Element -> Element) (b i : nat) (h news : heap) :
  i < length h -> i <> b -> (alter g b h ++ news) !! i = h !! i.
Proof.
  intros Hi Hne. rewrite lookup_app_l by (by rewrite length_alter).
  by apply list_lookup_alter_ne.
Qed.

End StoreFacts.

(** ** Syllabus *)
Section SyllabusTheorems.







(** Example 1 of the specification: the block [1.2 Intro] becomes the
    element [h2] with [id] 1.2 and text [1.2 Intro]. *)
Example outline_example :
  Syllabus.run 0 [py "1.2 Intro"] [fresh (py "root")] =
  Ok ((false, [[]]),
      [mkElement (py "root") [] None [1];
       mkElement (py "h2") [(py "id", PStr (py "1.2"))]
         (Some (py "1.2 Intro")) []]).
Proof. vm_compute. reflexivity. Qed.

(** The classes are the Unicode ones.  The ideographic space U+3000
    separates a number from its title; after an ASCII space it belongs to
    the white space, not to the title; and the full-width digit U+FF11
    begins a number. *)
Example outline_ideographic_space :
  Syllabus.run 0 [[0x31; 0x3000; 0x6807; 0x9898]%N] [fresh (py "root")] =
  Ok ((false, [[]]),
      [mkElement (py "root") [] None [1];
       mkElement (py "h1") [(py "id", PStr (py "1"))]
         (Some (py "1 " ++ [0x6807; 0x9898]%N)) []]).
Proof. vm_compute. reflexivity. Qed.

Example outline_white_space_run :
  Syllabus.run 0 [py "1 " ++ [0x3000]%N ++ py "T"] [fresh (py "root")] =
  Ok ((false, [[]]),
      [mkElement (py "root") [] None [1];
       mkElement (py "h1") [(py "id", PStr (py "1"))] (Some (py "1 T")) []]).
Proof. vm_compute. reflexivity. Qed.

Example outline_full_width_digit :
  Syllabus.run 0 [[0xFF11]%N ++ py ".2 T"] [fresh (py "root")] =
  Ok ((false, [[]]),
      [mkElement (py "root") [] None [1];
       mkElement (py "h2") [(py "id", PStr ([0xFF11]%N ++ py ".2"))]
         (Some ([0xFF11]%N ++ py ".2 T")) []]).
Proof. vm_compute. reflexivity. Qed.








End SyllabusTheorems.

(** ** InlineCode *)
Section InlineCodeTheorems.


Lemma first_line_whole s : newline ∉ s -> first_line s = s.
Proof.
  unfold first_line. induction s as [|x s IH]; [done|]. intros Hnot.
  apply not_elem_of_cons in Hnot as [Hx Hs]. simpl.
  unfold any at 1. destruct (N.eqb_spec x newline) as [->|_]; [done|].
  simpl. by rewrite IH.
Qed.

(** The first match of the pattern: the sigil if the source begins with
    one, then the rest of the first line. *)
Lemma inline_first source :
  head (Re.run InlineCode.inline_re source no_caps) =
  match source with
  | x :: rest =>
      if sigil x
      then Some (x :: first_line rest, dropWhile any rest,
                 set_cap 2 (first_line rest) (set_cap 1 [x] no_caps))
      else Some (first_line source, dropWhile any source,
                 set_cap 2 (first_line source) no_caps)
  | [] => Some ([], [], set_cap 2 [] no_caps)
  end.
Proof.
  unfold InlineCode.inline_re, Opt, first_line.
  rewrite run_Cat, run_Alt, run_Grp, run_Chr, run_Eps.
  destruct source as [|x rest].
  - by simpl.
  - destruct (sigil x) eqn:Hx.
    + apply head_bind_first.
      by rewrite head_bind_unit, grp_star_greedy_head.
    + apply head_bind_first.
      by rewrite head_bind_unit, grp_star_greedy_head.
Qed.

Lemma inline_groups source :
  groups <$> re_match InlineCode.inline_re source =
  Some match source with
       | x :: rest =>
           if sigil x then [Some [x]; Some (first_line rest)]
           else [None; Some (first_line source)]
       | [] => [None; Some []]
       end.
Proof.
  unfold re_match. pose proof (inline_first source) as H.
  destruct (Re.run InlineCode.inline_re source no_caps) as [|[[m r] c] tl].
  - destruct source as [|x rest]; [done|]. by destruct (sigil x).
  - simpl in H. destruct source as [|x rest].
    + by injection H as -> -> ->.
    + destruct (sigil x); by injection H as -> -> ->.
Qed.

Lemma call_no_sigil variable source css_class :
  not_led_by sigil source ->
  InlineCode.call variable source [] css_class =
  match variable with
  | None => Raise TypeError
  | Some d =>
      Ok (InlineCode.Html
            (code_html (default (first_line source) (d !! first_line source))))
  end.
Proof.
  intros Hled. unfold InlineCode.call.
  case_decide; [done|].
  pose proof (inline_groups source) as Hgr.
  destruct (re_match InlineCode.inline_re source) as [m|]; [|done].
  simpl in Hgr. injection Hgr as ->.
  assert (Hg : match source with
               | x :: rest =>
                   if sigil x then [Some [x]; Some (first_line rest)]
                   else [None; Some (first_line source)]
               | [] => [None; Some []]
               end = [None; Some (first_line source)]).
  { destruct source as [|x rest]; [done|]. simpl in Hled. by rewrite Hled. }
  rewrite Hg. destruct variable as [d|]; [|done].
  by destruct (d !! first_line source).
Qed.

Lemma call_sigil variable x rest css_class :
  sigil x = true ->
  InlineCode.call variable (x :: rest) [] css_class =
  if decide ([x] = py "#") then Ok (InlineCode.Html (span_html (first_line rest)))
  else if decide ([x] = py "-") then Ok (InlineCode.Html (a_html (first_line rest)))
  else Ok InlineCode.NoValue.
Proof.
  intros Hx. unfold InlineCode.call.
  case_decide; [done|].
  pose proof (inline_groups (x :: rest)) as Hgr.
  destruct (re_match InlineCode.inline_re (x :: rest)) as [m|]; [|done].
  simpl in Hgr. injection Hgr as ->. rewrite Hx. done.
Qed.

(** C4, for a source within one line, on the string that is returned.
    For an inline code span with an empty language tag, no leading sigil
    and no line break in its source: if the source is a key of the variable
    mapping, [__call__] returns the opening tag of the [code] element, the
    mapping's value for the source and the closing tag; if not, the same
    with the source itself in place of the value.  The value and the source
    are put between the tags as they are, without escaping, and no error is
    raised. *)
Theorem C4_variable_lookup (d : gmap str str) (source css_class : str) :
  not_led_by sigil source -> newline ∉ source ->
  (forall v, d !! source = Some v ->
     InlineCode.call (Some d) source [] css_class
       = Ok (InlineCode.Html
               (py "<code id=" ++ quote :: py "block" ++ quote :: py ">"
                ++ v ++ py "</code>")))
  /\
  (d !! source = None ->
     InlineCode.call (Some d) source [] css_class
       = Ok (InlineCode.Html
               (py "<code id=" ++ quote :: py "block" ++ quote :: py ">"
                ++ source ++ py "</code>"))).
Proof.
  intros Hled Hline. rewrite (call_no_sigil _ _ _ Hled).
  rewrite (first_line_whole _ Hline). split.
  - by intros v ->.
  - by intros ->.
Qed.

Lemma greeting_one_line : newline ∉ py "greeting".
Proof. apply any_not_newline. by repeat constructor. Qed.

(** Example 4 of the specification: the name [greeting], bound to the two
    characters U+4F60 U+597D, and unbound. *)
Lemma C4_variable_lookup_witness :
  InlineCode.call (Some (<[py "greeting" := [0x4F60; 0x597D]%N]> ∅))
    (py "greeting") [] []
    = Ok (InlineCode.Html (code_html [0x4F60; 0x597D]%N)) /\
  InlineCode.call (Some ∅) (py "greeting") [] []
    = Ok (InlineCode.Html (code_html (py "greeting"))).
Proof.
  split.
  - apply (proj1 (C4_variable_lookup (<[py "greeting" := [0x4F60; 0x597D]%N]> ∅)
                    (py "greeting") [] eq_refl greeting_one_line)).
    vm_compute. reflexivity.
  - apply (proj2 (C4_variable_lookup ∅ (py "greeting") []
                    eq_refl greeting_one_line)).
    vm_compute. reflexivity.
Defined.

(** C4 as the specification states it fails on a source of two lines: with
    an empty mapping the text is the first line only, not the source; and a
    key of two lines that is in the mapping is not found.  Within one line
    the string holds the value as it is: a value with markup in it comes
    back as markup inside the [code] element, not as its text. *)
Lemma C4_counterexample :
  let source := py "a" ++ newline :: py "b" in
  InlineCode.call (Some ∅) source [] []
    = Ok (InlineCode.Html (code_html (py "a"))) /\
  InlineCode.call (Some ∅) source [] []
    <> Ok (InlineCode.Html (code_html source)) /\
  InlineCode.call (Some (<[source := py "x"]> ∅)) source [] []
    <> Ok (InlineCode.Html (code_html (py "x"))) /\
  InlineCode.call (Some (<[py "t" := py "<b>x</b>"]> ∅)) (py "t") [] []
    = Ok (InlineCode.Html
            (py "<code id=" ++ quote :: py "block" ++ quote
             :: py "><b>x</b></code>")).
Proof.
  split; [vm_compute; reflexivity|].
  split; [vm_compute; discriminate|].
  split; [vm_compute; discriminate|].
  vm_compute; reflexivity.
Qed.

(** C8, for a source within one line, on the string that is returned.
    With an empty language tag and no line break after the sigil, a source
    that begins with [#] gives the string of a [span] with the remainder
    between double quotes as [id] and the remainder between the tags, and a
    source that begins with [-] gives the string of an [a] with [#] and the
    remainder, not quoted, as [href] and the remainder between the tags.
    The remainder is put there as it is, without escaping. *)
Theorem C8_sigils (variable : option (gmap str str)) (rest css_class : str) :
  newline ∉ rest ->
  InlineCode.call variable ((ord "#") :: rest) [] css_class
    = Ok (InlineCode.Html
            (py "<span id=" ++ quote :: rest ++ quote :: py ">"
             ++ rest ++ py "</span>"))
  /\
  InlineCode.call variable ((ord "-") :: rest) [] css_class
    = Ok (InlineCode.Html
            (py "<a href=#" ++ rest ++ py ">" ++ rest ++ py "</a>")).
Proof.
  intros Hline. rewrite !call_sigil by done.
  by rewrite (first_line_whole _ Hline).
Qed.

Lemma sec1_one_line : newline ∉ py "sec1".
Proof. apply any_not_newline. by repeat constructor. Qed.

Lemma C8_sigils_witness :
  InlineCode.call (Some ∅) (py "#sec1") [] (py "block")
    = Ok (InlineCode.Html
            (py "<span id=" ++ quote :: py "sec1" ++ quote :: py ">sec1</span>"))
  /\
  InlineCode.call (Some ∅) (py "-sec1") [] (py "block")
    = Ok (InlineCode.Html (py "<a href=#sec1>sec1</a>")).
Proof.
  apply (C8_sigils (Some ∅) (py "sec1") (py "block") sec1_one_line).
Defined.

(** Example 3 of the specification. *)
Example anchor_example :
  InlineCode.call (Some ∅) (py "#sec1") [] (py "block")
  = Ok (InlineCode.Html (py "<span id=" ++ quote :: py "sec1" ++ quote :: py ">sec1</span>")).
Proof. vm_compute. reflexivity. Qed.

(** C8 as the specification states it fails on a source of two lines: the
    [span] and the [a] carry the first line after the sigil, not all that
    follows the sigil.  Within one line the string holds the remainder as
    it is: after [-], a remainder with a space in it leaves an [href]
    value, not quoted, that a reader of the string ends at the space. *)
Lemma C8_counterexample :
  let rest := py "a" ++ newline :: py "b" in
  InlineCode.call (Some ∅) ((ord "#") :: rest) [] []
    = Ok (InlineCode.Html (span_html (py "a"))) /\
  InlineCode.call (Some ∅) ((ord "#") :: rest) [] []
    <> Ok (InlineCode.Html (span_html rest)) /\
  InlineCode.call (Some ∅) ((ord "-") :: rest) [] []
    <> Ok (InlineCode.Html (a_html rest)) /\
  InlineCode.call (Some ∅) (py "-a b") [] []
    = Ok (InlineCode.Html (py "<a href=#a b>a b</a>")).
Proof.
  split; [vm_compute; reflexivity|].
  split; [vm_compute; discriminate|].
  split; [vm_compute; discriminate|].
  vm_compute; reflexivity.
Qed.

End InlineCodeTheorems.

(** ** ID *)
Section IDTheorems.

(** What [handleMatch] builds, whatever the override is: the text is
    group 1 and the attribute is group 2 when the override is [None], the
    override itself otherwise. *)
Lemma handleMatch_result (self : ID.t) (start : nat) (w : str)
    (g1 g2 : option str) (more : list (option str)) (data : str) (h : heap) :
  ID.handleMatch self (mkMatch start w (g1 :: g2 :: more)) data h =
  Ok ((length h, start, start + length w),
      h ++ [mkElement (ID.tag self)
              [(ID.property self,
                match ID.value self with
                | PNone => pyval_of g2
                | other => other
                end)]
              g1 []]).
Proof.
  unfold ID.handleMatch, bind, ret, lift, Element_new, assign_text, set, m_end.
  simpl.
  assert (Hh : forall f, alter f (length h) (h ++ [fresh (ID.tag self)])
                         = h ++ [f (fresh (ID.tag self))]).
  { intros f. rewrite <- (Nat.add_0_r (length h)). by rewrite alter_app_r. }
  destruct (ID.value self); simpl; rewrite Hh;
    rewrite <- (Nat.add_0_r (length h)) at 2; by rewrite alter_app_r.
Qed.

(** C3 fails on the module.  With the override set to the integer 1 the
    attribute is the integer 1 itself, not the text of group 1; with no
    override it is group 2, and with a string it is that string. *)
Theorem C3_integer_override :
  let data := py "[visible]-(hidden)" in
  let m := mkMatch 0 data [Some (py "visible"); Some (py "hidden")] in
  re_match hide_re data = Some m /\
  ID.handleMatch (ID.mk hide_re (py "span") (py "title") (PInt 1)) m data []
    = Ok ((0, 0, 18),
          [mkElement (py "span") [(py "title", PInt 1)] (Some (py "visible")) []])
  /\
  ID.handleMatch hide m data []
    = Ok ((0, 0, 18),
          [mkElement (py "span") [(py "title", PStr (py "hidden"))]
             (Some (py "visible")) []])
  /\
  ID.handleMatch (ID.mk hide_re (py "span") (py "title") (PStr (py "fixed"))) m data []
    = Ok ((0, 0, 18),
          [mkElement (py "span") [(py "title", PStr (py "fixed"))]
             (Some (py "visible")) []]).
Proof. repeat split; vm_compute; reflexivity. Qed.

End IDTheorems.

(** ** Dialogue lines *)
Section DialogueLineFacts.
Import DialogueParser.


Lemma grp_plus_lazy_list n p x s c :
  p x = true ->
  Re.run (Grp n (Plus false (Chr p))) (x :: s) c =
  map (fun '(m, r) => (x :: m, r, set_cap n (x :: m) c)) (lazy_splits p s).
Proof.
  intros Hx. unfold Plus. rewrite run_Grp, run_Cat, run_Chr, Hx. simpl.
  rewrite app_nil_r, run_Star, star_lazy_list by lia.
  generalize (lazy_splits p s). intros l.
  induction l as [|[m r] l IH]; [done|]. simpl. f_equal. exact IH.
Qed.

Lemma then_after_not_angle m1 y s1 c1 :
  angle y = false -> then_after (m1, y :: s1, c1) = [].
Proof.
  intros Hy. unfold then_after, after_speaker, Plus.
  by rewrite run_Cat, run_Grp, run_Cat, run_Chr, Hy.
Qed.

Lemma takeWhile_all_in p s : all_in p s -> takeWhile p s = s.
Proof.
  intros H. rewrite <- (app_nil_r s) at 1. by apply takeWhile_app.
Qed.

Lemma dropWhile_all_in p s : all_in p s -> dropWhile p s = [].
Proof.
  intros H. rewrite <- (app_nil_r s) at 1. by apply dropWhile_app.
Qed.

Lemma after_speaker_head sep b c :
  sep <> [] -> all_in angle sep -> utterance b ->
  head (Re.run after_speaker (sep ++ b) c) =
  Some (sep ++ b, [], set_cap 3 b (set_cap 2 sep c)).
Proof.
  intros Hne Hsep (Hb & Hany & Hled). unfold after_speaker. rewrite run_Cat.
  destruct Hsep as [|y sep Hy Hsep]; [done|].
  apply head_bind_cons with (y :: sep, b, set_cap 2 (y :: sep) c).
  - simpl. rewrite grp_plus_greedy_head, Hy.
    by rewrite takeWhile_app, dropWhile_app.
  - rewrite head_bind_unit, grp_plus_greedy_head.
    destruct Hany as [|z b Hz Hany]; [done|]. rewrite Hz.
    by rewrite takeWhile_all_in, dropWhile_all_in.
Qed.

Lemma lazy_skip (pre a r : str) (c : caps) :
  all_in any a -> none_in angle a -> r <> [] ->
  head (map (fun '(m, s) => (pre ++ m, s, set_cap 1 (pre ++ m) c))
          (lazy_splits any (a ++ r)) ≫= then_after) =
  head (map (fun '(m, s) => ((pre ++ a) ++ m, s, set_cap 1 ((pre ++ a) ++ m) c))
          (lazy_splits any r) ≫= then_after).
Proof.
  intros Hany Hnone Hr. revert pre.
  induction Hany as [|x a Hx Hany IH]; intros pre.
  - simpl. by rewrite app_nil_r.
  - inversion Hnone as [|? ? Hx' Hnone']; subst.
    change ((x :: a) ++ r) with (x :: (a ++ r)).
    simpl lazy_splits. rewrite Hx. rewrite map_cons.
    rewrite head_bind_skip by (by apply then_after_not_angle).
    rewrite map_map.
    replace (pre ++ x :: a) with ((pre ++ [x]) ++ a) by (by rewrite <- app_assoc).
    rewrite <- (IH Hnone' (pre ++ [x])). f_equal. f_equal.
    apply map_ext. intros [m s]. by rewrite <- !app_assoc.
Qed.

(** A line made of a speaker, a run of [<] and [>], and an utterance
    matches with just these three groups. *)
Lemma dialogue_shape a sep b :
  speaker a -> sep <> [] -> all_in angle sep -> utterance b ->
  re_match dialogue_re (a ++ sep ++ b) =
  Some (mkMatch 0 (a ++ sep ++ b) [Some a; Some sep; Some b]).
Proof.
  intros (Ha & Hany & Hnone) Hne Hsep Hb.
  assert (Hhead : head (Re.run dialogue_re (a ++ sep ++ b) no_caps) =
    Some (a ++ sep ++ b, [],
          set_cap 3 b (set_cap 2 sep (set_cap 1 a no_caps)))).
  { unfold dialogue_re. fold after_speaker. rewrite run_Cat.
    change (fun '(m1, s1, c1) =>
              '(m2, s2, c2) ← Re.run after_speaker s1 c1; [(m1 ++ m2, s2, c2)])
      with then_after.
    destruct Hany as [|x a Hx Hany]; [done|]. simpl in Hnone.
    change ((x :: a) ++ sep ++ b) with (x :: (a ++ sep ++ b)).
    rewrite (grp_plus_lazy_list 1 any x _ _ Hx).
    rewrite (map_ext _ (fun '(m, s) => ([x] ++ m, s, set_cap 1 ([x] ++ m) no_caps)))
      by (by intros [m s]).
    rewrite lazy_skip; [|done|done|by destruct sep].
    destruct sep as [|y sep]; [done|].
    change ((y :: sep) ++ b) with (y :: (sep ++ b)). simpl lazy_splits.
    rewrite map_cons. apply head_bind_first.
    unfold then_after. rewrite head_bind_unit.
    change (y :: sep ++ b) with ((y :: sep) ++ b).
    rewrite after_speaker_head by done. simpl. by rewrite app_nil_r. }
  unfold re_match.
  destruct (Re.run dialogue_re (a ++ sep ++ b) no_caps) as [|[[m r] c] tl];
    [done|].
  simpl in Hhead. by injection Hhead as -> -> ->.
Qed.

(** A line with no [<] or [>] after its first character does not match. *)
Lemma dialogue_no_match l :
  none_in angle (tail l) -> re_match dialogue_re l = None.
Proof.
  intros Hnone. unfold re_match.
  destruct (Re.run dialogue_re l no_caps) as [|[[m r] c] tl] eqn:Hrun; [done|].
  exfalso.
  assert (Hin : (m, r, c) ∈ Re.run dialogue_re l no_caps)
    by (rewrite Hrun; by apply elem_of_cons; left).
  apply run_sound in Hin as [-> HM].
  unfold dialogue_re in HM.
  inversion HM as [| |r1 r2 c0 m1 c1 m23 c3 H1 H23| | | | |]; subst.
  inversion H23 as [| |r1 r2 c0 m2 c2 m3 c3' H2 H3| | | | |]; subst.
  inversion H1 as [| | | | | | |n1 r1' ca ma ca' H1']; subst.
  inversion H2 as [| | | | | | |n2 r2' cb mb cb' H2']; subst.
  apply Matches_plus_class in H1' as (Hm1 & _ & _).
  apply Matches_plus_class in H2' as (Hm2 & Hang & _).
  destruct m1 as [|x m1]; [done|]. destruct Hang as [|y m2 Hy _]; [done|].
  simpl in Hnone. unfold none_in in Hnone. rewrite Forall_forall in Hnone.
  assert (Hy' : angle y = false).
  { apply Hnone. rewrite <- !app_assoc. simpl.
    apply elem_of_app. right. by apply elem_of_cons; left. }
  congruence.
Qed.

Lemma lines_turn self l :
  lines self l =
  match turn_of l with
  | Some (d, ch, tx, ty) => line self d ch tx ty
  | None => ret tt
  end.
Proof.
  unfold lines, turn_of. case_decide; [done|].
  destruct (re_match dialogue_re l) as [m|]; [|done].
  destruct (groups m) as [|[ch|] [|[sep|] [|[dlg|] [|? ?]]]]; try done.
  repeat case_decide; done.
Qed.

End DialogueLineFacts.

(** ** The rows of a dialogue *)
Section DialogueStoreFacts.
Import DialogueParser.

Ltac store_norm :=
  repeat (first [ rewrite <- app_assoc | rewrite <- Nat.add_assoc
                | rewrite length_app | rewrite length_alter
                | rewrite alter_fresh | rewrite alter_grown ]; simpl).

Lemma line_result self d ch tx ty (h : heap) :
  line self d ch tx ty h =
  Ok (tt, alter (add_child (length h)) (box self) h
          ++ row_nodes (length h) (d, ch, tx, ty)).
Proof.
  unfold line, bind, ret, SubElement, set, assign_text.
  destruct d, ty; simpl; store_norm; reflexivity.
Qed.

Lemma add_children_nil e : add_children [] e = e.
Proof. destruct e. unfold add_children. simpl. by rewrite app_nil_r. Qed.

Lemma lines_result self l (h : heap) :
  lines self l h =
  Ok (tt, match turn_of l with
          | Some t => alter (add_child (length h)) (box self) h
                      ++ row_nodes (length h) t
          | None => h
          end).
Proof.
  rewrite lines_turn. destruct (turn_of l) as [[[[d ch] tx] ty]|]; [|done].
  apply line_result.
Qed.

(** One row per turn, in the order of the lines, each attached to the
    container. *)
Lemma for_lines_result self ls : forall h : heap,
  box self < length h ->
  for_lines self ls h =
  Ok (tt, alter (add_children (row_refs (length h) (omap turn_of ls))) (box self) h
          ++ rows_nodes (length h) (omap turn_of ls)).
Proof.
  induction ls as [|l ls IH]; intros h Hbox; simpl.
  - rewrite app_nil_r. rewrite list_alter_id; [done|]. apply add_children_nil.
  - unfold bind. rewrite lines_result.
    destruct (turn_of l) as [t|]; [|by apply IH].
    rewrite IH by (rewrite length_app, length_alter; lia).
    rewrite length_app, length_alter. simpl.
    rewrite alter_kept by done. rewrite <- app_assoc.
    do 2 f_equal. f_equal. apply list_alter_ext; [|done].
    intros e _. unfold add_children, add_child. simpl.
    by rewrite <- app_assoc.
Qed.

Lemma init_result tx argument b (h : heap) :
  b < length h ->
  init tx argument b h =
  Ok (mk tx (length h) b (length h + 1),
      alter (add_children [length h; length h + 1]) b h
      ++ [fresh (py "div"); fresh (py "div")]).
Proof.
  intros Hb. unfold init, bind, ret, SubElement.
  rewrite length_app, length_alter. simpl.
  rewrite alter_kept by done. rewrite <- app_assoc. simpl.
  do 3 f_equal. apply list_alter_ext; [|done].
  intros e _. unfold add_children, add_child. simpl.
  by rewrite <- app_assoc.
Qed.

(** The store after [on_end]. *)
Lemma on_end_result argument b (h : heap) e body :
  h !! b = Some e -> text e = Some body ->
  DialogueBlock.on_end argument b h = Ok (tt, rendered_store h b body).
Proof.
  intros Hb Htx. pose proof (lookup_lt_Some _ _ _ Hb) as Hlt.
  unfold DialogueBlock.on_end, bind, read_text. rewrite Hb, Htx.
  rewrite init_result by done.
  unfold call, bind, set, read_text, need_str, ret, SubElement, assign_text.
  cbn [title box block].
  rewrite alter_fresh, alter_grown.
  rewrite (lookup_kept _ _ _ _ e Hb). cbn [text add_children ret].
  rewrite Htx.
  rewrite for_lines_result by (cbn [box]; rewrite length_app, length_alter; simpl; lia).
  cbn [box]. rewrite !length_app, !length_alter.
  cbn [length alter list_alter]. rewrite alter_grown.
  rewrite <- !app_assoc.
  rewrite !alter_kept by (rewrite ?length_app, ?length_alter; lia).
  unfold rendered_store. fold (turns body).
  do 2 f_equal. rewrite <- !app_assoc. f_equal.
  apply list_alter_ext; [|done]. intros e' _.
  unfold ended, set_text, add_child, add_children. simpl.
  rewrite <- !app_assoc, length_app, length_alter. simpl.
  by rewrite <- Nat.add_assoc.
Qed.

(** *** Reading the rows back as trees *)

Lemma reify_S fuel (h : heap) r :
  reify (S fuel) h r =
  match h !! r with
  | Some e =>
      match mapM (reify fuel h) (children e) with
      | Some kids => Some (Node (tag e) (attrib e) (text e) kids)
      | None => None
      end
  | None => None
  end.
Proof. reflexivity. Qed.

Lemma reify_row (P S : heap) (t : turn) :
  reify 3 (P ++ row_nodes (length P) t ++ S) (length P) = Some (row_tree t).
Proof.
  destruct t as [[[d ch] tx] ty].
  destruct ty; simpl;
    repeat (rewrite ?lookup_grown_0, ?lookup_grown; simpl); reflexivity.
Qed.

Lemma reify_rows ts : forall (P S : heap),
  mapM (reify 3 (P ++ rows_nodes (length P) ts ++ S)) (row_refs (length P) ts)
  = Some (map row_tree ts).
Proof.
  induction ts as [|t ts IH]; intros P S; [done|].
  apply mapM_Some. simpl. constructor.
  - rewrite <- app_assoc. apply reify_row.
  - apply mapM_Some. rewrite <- app_assoc, app_assoc.
    rewrite <- (length_app P). apply IH.
Qed.

Lemma mapM_three {A B} (f : A -> option B) a b c ya yb yc :
  f a = Some ya -> f b = Some yb -> f c = Some yc ->
  mapM f [a; b; c] = Some [ya; yb; yc].
Proof. intros Ha Hb Hc. apply mapM_Some. by repeat constructor. Qed.

(** The rendered block read back as a tree, for a block that had no child
    before. *)
Lemma rendered_tree (h : heap) b e body :
  h !! b = Some e -> children e = [] ->
  reify 5 (rendered_store h b body) b =
  Some (Node (tag e) (attrib e) (Some [])
          [ Node (py "div") [(py "class", PStr (py "message-title"))] None [];
            Node (py "div") [(py "class", PStr (py "dialog-container"))] None
              (map row_tree (turns body));
            Node (py "br") [] None [] ]).
Proof.
  intros Hb Hkids. unfold rendered_store.
  set (n := length h). set (ts := turns body).
  set (rows := rows_nodes (n + 2) ts).
  set (F := ended [n; n + 1; n + 2 + length rows]).
  set (h' := alter F b h ++ title_element :: box_element (row_refs (n + 2) ts)
             :: rows ++ [fresh (py "br")]).
  assert (Hn : length (alter F b h) = n) by apply length_alter.
  assert (Hrows : mapM (reify 3 h') (row_refs (n + 2) ts) = Some (map row_tree ts)).
  { subst h' rows.
    replace (alter F b h ++ title_element :: box_element (row_refs (n + 2) ts)
             :: rows_nodes (n + 2) ts ++ [fresh (py "br")])
      with ((alter F b h ++ [title_element; box_element (row_refs (n + 2) ts)])
            ++ rows_nodes (n + 2) ts ++ [fresh (py "br")])
      by (by rewrite <- app_assoc).
    replace (n + 2) with
      (length (alter F b h ++ [title_element; box_element (row_refs (n + 2) ts)]))
      at 2 3 by (rewrite length_app, Hn; done).
    apply reify_rows. }
  assert (Htitle : h' !! n = Some title_element).
  { subst h'. rewrite <- Hn. by rewrite lookup_grown_0. }
  assert (Hbox : h' !! (n + 1) = Some (box_element (row_refs (n + 2) ts))).
  { subst h'. rewrite <- Hn. by rewrite lookup_grown. }
  assert (Hbr : h' !! (n + 2 + length rows) = Some (fresh (py "br"))).
  { subst h'. rewrite <- Hn, <- Nat.add_assoc, lookup_grown. simpl.
    rewrite lookup_grown_0. done. }
  assert (Hblock : h' !! b = Some (F e)) by (by apply lookup_kept).
  clearbody h'. rewrite reify_S, Hblock.
  unfold F, ended. cbn [children tag attrib text]. rewrite Hkids.
  rewrite app_nil_l.
  erewrite mapM_three; [reflexivity| | |].
  - by rewrite reify_S, Htitle.
  - rewrite reify_S, Hbox. cbn [children box_element]. by rewrite Hrows.
  - by rewrite reify_S, Hbr.
Qed.

End DialogueStoreFacts.

(** ** Dialogue *)
Section DialogueTheorems.
Import DialogueParser.

Lemma dialogue_groups l m :
  re_match dialogue_re l = Some m ->
  exists ch sep dlg,
    groups m = [Some ch; Some sep; Some dlg] /\ sep <> [] /\ all_in angle sep.
Proof.
  unfold re_match.
  destruct (Re.run dialogue_re l no_caps) as [|[[w r] c] tl] eqn:Hrun; [done|].
  intros [= <-].
  assert (Hin : (w, r, c) ∈ Re.run dialogue_re l no_caps)
    by (rewrite Hrun; by apply elem_of_cons; left).
  apply run_sound in Hin as [-> HM]. unfold dialogue_re in HM.
  inversion HM as [| |r1 r2 c0 m1 c1 m23 c3 H1 H23| | | | |]; subst.
  inversion H23 as [| |r1 r2 c0 m2 c2 m3 c3' H2 H3| | | | |]; subst.
  inversion H1 as [| | | | | | |n1 r1' ca ma ca' H1']; subst.
  inversion H2 as [| | | | | | |n2 r2' cb mb cb' H2']; subst.
  inversion H3 as [| | | | | | |n3 r3' cc mc cc' H3']; subst.
  apply Matches_plus_class in H1' as (_ & _ & ->).
  apply Matches_plus_class in H2' as (Hm2 & Hang & ->).
  apply Matches_plus_class in H3' as (_ & _ & ->).
  by exists m1, m2, m3.
Qed.

Lemma turn_of_form l t : line_form l t -> turn_of l = Some t.
Proof.
  assert (Hsep : forall a sep b, speaker a -> utterance b ->
            sep <> [] -> all_in angle sep ->
            turn_of (a ++ sep ++ b) =
            if decide (sep = py ">") then Some (Left_, a, b, Normal)
            else if decide (sep = py "<") then Some (Right_, a, b, Normal)
            else if decide (sep = py ">>") then Some (Left_, a, b, Mental)
            else if decide (sep = py "<<") then Some (Right_, a, b, Mental)
            else None).
  { intros a sep b Ha Hb Hne Hsep. unfold turn_of.
    rewrite dialogue_shape by done.
    case_decide as Hnil; [|done].
    destruct Ha as (Ha & _). by destruct a. }
  destruct 1 as [a b Ha Hb|a b Ha Hb|a b Ha Hb|a b Ha Hb|l (Hl & _ & Hnone)].
  - rewrite Hsep; [done|done|done|discriminate|by repeat constructor].
  - rewrite Hsep; [done|done|done|discriminate|by repeat constructor].
  - rewrite Hsep; [done|done|done|discriminate|by repeat constructor].
  - rewrite Hsep; [done|done|done|discriminate|by repeat constructor].
  - unfold turn_of. case_decide; [done|]. by rewrite dialogue_no_match.
Qed.

(** C1, as the module has it.  A line that is not empty is matched against
    the pattern whose separator, group 2, is a run of [<] and [>] in any
    mix.  No match: narration (centre, no speaker, the whole line, normal).
    A match whose separator is exactly [>], [<], [>>] or [<<]: left normal,
    right normal, left inner thought, right inner thought, with group 1 as
    the speaker and group 3 as the utterance.  A match with any other
    separator: no turn.  A speaker, a run of [<] and [>], and an utterance
    match with just these three groups, and a line with no [<] or [>] after
    its first character does not match; so each of the five line forms
    gives its turn. *)
Theorem C1_line_classification (self : DialogueParser.t) :
  (forall l, l <> [] -> re_match dialogue_re l = None ->
     lines self l = line self Center [] l Normal)
  /\
  (forall l m ch sep dlg,
     l <> [] -> re_match dialogue_re l = Some m ->
     groups m = [Some ch; Some sep; Some dlg] ->
     (sep = py ">" -> lines self l = line self Left_ ch dlg Normal) /\
     (sep = py "<" -> lines self l = line self Right_ ch dlg Normal) /\
     (sep = py ">>" -> lines self l = line self Left_ ch dlg Mental) /\
     (sep = py "<<" -> lines self l = line self Right_ ch dlg Mental) /\
     (sep ∉ separators -> lines self l = ret tt))
  /\
  (forall a sep b,
     speaker a -> sep <> [] -> all_in angle sep -> utterance b ->
     re_match dialogue_re (a ++ sep ++ b) =
     Some (mkMatch 0 (a ++ sep ++ b) [Some a; Some sep; Some b]))
  /\
  (forall l, none_in angle (tail l) -> re_match dialogue_re l = None)
  /\
  (forall l d ch tx ty,
     line_form l (d, ch, tx, ty) -> lines self l = line self d ch tx ty).
Proof.
  split; [|split; [|split; [|split]]]; cycle 4.
  - intros l d ch tx ty Hform.
    by rewrite lines_turn, (turn_of_form _ _ Hform).
  - intros l Hl Hno. unfold lines. case_decide; [done|]. by rewrite Hno.
  - intros l m ch sep dlg Hl Hm Hg. unfold lines.
    case_decide; [done|]. rewrite Hm, Hg.
    repeat split; intros Hsep.
    + subst sep. by case_decide.
    + subst sep. by repeat case_decide.
    + subst sep. by repeat case_decide.
    + subst sep. by repeat case_decide.
    + unfold separators in Hsep. rewrite !not_elem_of_cons in Hsep.
      destruct Hsep as (? & ? & ? & ? & _). by repeat case_decide.
  - apply dialogue_shape.
  - apply dialogue_no_match.
Qed.

Lemma C1_line_classification_witness :
  lines (mk None 1 0 2) (py "Alice>Hello")
  = line (mk None 1 0 2) Left_ (py "Alice") (py "Hello") Normal.
Proof.
  apply (proj1 (proj1 (proj2 (C1_line_classification (mk None 1 0 2)))
                  (py "Alice>Hello")
                  (mkMatch 0 (py "Alice>Hello")
                     [Some (py "Alice"); Some (py ">"); Some (py "Hello")])
                  (py "Alice") (py ">") (py "Hello")
                  ltac:(discriminate) ltac:(vm_compute; reflexivity)
                  ltac:(reflexivity))).
  reflexivity.
Defined.

(** C1 as the specification states it fails on the line [A><B]: the
    specification's pattern matches it with the separator [>] and the
    utterance [<B], which would be a left turn, while [lines] matches the
    separator [><] and makes no turn. *)
Lemma C1_counterexample :
  let self := mk None 1 0 2 in
  let h := [fresh (py "div"); fresh (py "div"); fresh (py "div")] in
  groups <$> re_match spec_dialogue_re (py "A><B")
    = Some [Some (py "A"); Some (py ">"); Some (py "<B")] /\
  groups <$> re_match dialogue_re (py "A><B")
    = Some [Some (py "A"); Some (py "><"); Some (py "B")] /\
  spec_lines self (py "A><B") h = line self Left_ (py "A") (py "<B") Normal h /\
  lines self (py "A><B") h = Ok (tt, h) /\
  lines self (py "A><B") h <> spec_lines self (py "A><B") h.
Proof.
  repeat split; try (vm_compute; reflexivity). vm_compute. discriminate.
Qed.

Lemma row_refs_length n ts : length (row_refs n ts) = length ts.
Proof. revert n. induction ts as [|t ts IH]; intros n; simpl; [done|]. by rewrite IH. Qed.

Lemma omap_length_le {A B} (f : A -> option B) l : length (omap f l) <= length l.
Proof.
  induction l as [|x l IH]; simpl; [lia|].
  change (list_omap A B f l) with (omap f l). destruct (f x); simpl; lia.
Qed.

Lemma omap_length_lt {A B} (f : A -> option B) l x :
  x ∈ l -> f x = None -> length (omap f l) < length l.
Proof.
  intros Hin Hx. induction Hin as [x l|x y l Hin IH]; simpl;
    change (list_omap A B f l) with (omap f l).
  - rewrite Hx. pose proof (omap_length_le f l). lia.
  - specialize (IH Hx). destruct (f y); simpl; lia.
Qed.

Lemma rendered_box (h : heap) b body :
  rendered_store h b body !! (length h + 1)
  = Some (box_element (row_refs (length h + 2) (turns body))).
Proof.
  unfold rendered_store.
  set (F := ended _).
  rewrite <- (length_alter F h b) at 1. by rewrite lookup_grown.
Qed.

Lemma space_line_narration self l :
  l <> [] -> all_in space l -> lines self l = line self Center [] l Normal.
Proof.
  intros Hl Hsp. unfold lines. case_decide; [done|].
  rewrite dialogue_no_match; [done|].
  destruct Hsp as [|x l Hx Hsp]; [done|]. simpl.
  eapply Forall_impl; [exact Hsp|]. apply space_not_angle.
Qed.

(** C9, as the module has it.  On a block element with any text, [on_end]
    ends without an exception.  The container gets one row per turn; an
    empty line has no turn, so there are at most as many turns as lines,
    and fewer when a line is empty.  A line that is not empty but holds
    white space only is not skipped: it is narration.  Every line is
    handled without an exception, and a line that is not empty has no turn
    only when it matches with a separator other than [>], [<], [>>] and
    [<<]. *)
Theorem C9_dialogue_total (argument : option str) (b : ref) (h : heap)
    (e : Element) (body : str) :
  h !! b = Some e -> text e = Some body ->
  (exists h' rows,
     DialogueBlock.on_end argument b h = Ok (tt, h') /\
     h' !! (length h + 1) = Some (box_element rows) /\
     length rows = length (turns body))
  /\ turn_of [] = None
  /\ length (turns body) <= length (split newline body)
  /\ ([] ∈ split newline body ->
      length (turns body) < length (split newline body))
  /\ (forall self l h0, exists h1, lines self l h0 = Ok (tt, h1))
  /\ (forall l, l <> [] -> turn_of l = None ->
      exists m ch sep dlg,
        re_match dialogue_re l = Some m /\
        groups m = [Some ch; Some sep; Some dlg] /\
        sep <> [] /\ all_in angle sep /\ sep ∉ separators)
  /\ (forall self, lines self [] = ret tt)
  /\ (forall self l, l <> [] -> all_in space l ->
      lines self l = line self Center [] l Normal).
Proof.
  intros Hb Htx.
  split; [|split; [|split; [|split; [|split; [|split; [|split]]]]]].
  - exists (rendered_store h b body), (row_refs (length h + 2) (turns body)).
    split; [by apply on_end_result with e|].
    split; [apply rendered_box | apply row_refs_length].
  - done.
  - apply omap_length_le.
  - intros Hin. by apply omap_length_lt with [].
  - intros self l h0. rewrite lines_result. eauto.
  - intros l Hl Hnone. unfold turn_of in Hnone.
    case_decide; [done|].
    destruct (re_match dialogue_re l) as [m|] eqn:Hm; [|done].
    destruct (dialogue_groups l m Hm) as (ch & sep & dlg & Hg & Hne & Hang).
    rewrite Hg in Hnone. exists m, ch, sep, dlg.
    repeat (split; [done|]).
    unfold separators. rewrite !not_elem_of_cons.
    repeat case_decide; try done. repeat split; try done. apply not_elem_of_nil.
  - done.
  - apply space_line_narration.
Qed.

Lemma C9_dialogue_total_witness :
  let body := py "Alice>Hello" ++ newline :: newline :: py "Bob<Hi!" in
  let h := [mkElement (py "div") [] (Some body) []] in
  exists h' rows,
    DialogueBlock.on_end None 0 h = Ok (tt, h') /\
    h' !! 2 = Some (box_element rows) /\
    length rows = length (turns body).
Proof.
  intros body h.
  apply (proj1 (C9_dialogue_total None 0 h
                  (mkElement (py "div") [] (Some body) []) body
                  eq_refl eq_refl)).
Defined.

(** C9 as the specification states it fails on a body whose second line is
    three spaces: the line is blank, and it is not skipped.  [lines] makes
    the narration row of it, so the body has three turns for its three
    lines, not fewer, and the container gets three rows. *)
Lemma C9_counterexample :
  let body := py "Alice>Hello" ++ newline :: py "   " ++ newline :: py "Bob<Hi!" in
  let h := [mkElement (py "div") [] (Some body) []] in
  split newline body = [py "Alice>Hello"; py "   "; py "Bob<Hi!"] /\
  blank (py "   ") = true /\
  (forall self h0,
     lines self (py "   ") h0 = line self Center [] (py "   ") Normal h0) /\
  turns body = [(Left_, py "Alice", py "Hello", Normal);
                (Center, [], py "   ", Normal);
                (Right_, py "Bob", py "Hi!", Normal)] /\
  ~ length (turns body) < length (split newline body) /\
  exists h' rows,
    DialogueBlock.on_end None 0 h = Ok (tt, h') /\
    h' !! 2 = Some (box_element rows) /\ length rows = 3.
Proof.
  intros body h.
  assert (Hturns : turns body = [(Left_, py "Alice", py "Hello", Normal);
                                 (Center, [], py "   ", Normal);
                                 (Right_, py "Bob", py "Hi!", Normal)])
    by (vm_compute; reflexivity).
  split; [vm_compute; reflexivity|]. split; [vm_compute; reflexivity|].
  split.
  { intros self h0. rewrite lines_turn.
    assert (Ht : turn_of (py "   ") = Some (Center, [], py "   ", Normal))
      by (vm_compute; reflexivity).
    by rewrite Ht. }
  split; [exact Hturns|]. split; [vm_compute; lia|].
  exists (rendered_store h 0 body), (row_refs (length h + 2) (turns body)).
  split; [by apply on_end_result with (mkElement (py "div") [] (Some body) [])|].
  split; [exact (rendered_box h 0 body)|]. by rewrite row_refs_length, Hturns.
Qed.

(** Example 2 of the specification: two turns, nothing for the empty
    line. *)
Example dialogue_example :
  turns (py "Alice>Hello" ++ newline :: newline :: py "Bob<Hi!")
  = [(Left_, py "Alice", py "Hello", Normal);
     (Right_, py "Bob", py "Hi!", Normal)].
Proof. vm_compute. reflexivity. Qed.

(** C10.  After [on_end] on a block element that had no child, the
    element's own text is the empty string and its children are, in this
    order, the title element, the container with one row per turn in the
    order of the lines, and the line-break element. *)
Theorem C10_rendered_block (argument : option str) (b : ref) (h : heap)
    (e : Element) (body : str) :
  h !! b = Some e -> text e = Some body -> children e = [] ->
  exists h',
    DialogueBlock.on_end argument b h = Ok (tt, h') /\
    (exists last, h' !! b =
       Some (mkElement (tag e) (attrib e) (Some [])
               [length h; length h + 1; last])) /\
    reify 5 h' b =
    Some (Node (tag e) (attrib e) (Some [])
            [ Node (py "div") [(py "class", PStr (py "message-title"))] None [];
              Node (py "div") [(py "class", PStr (py "dialog-container"))] None
                (map row_tree (turns body));
              Node (py "br") [] None [] ]).
Proof.
  intros Hb Htx Hkids. exists (rendered_store h b body).
  split; [by apply on_end_result with e|].
  split; [|by apply rendered_tree].
  eexists. unfold rendered_store. rewrite (lookup_kept _ _ _ _ e Hb).
  unfold ended. by rewrite Hkids.
Qed.

Lemma C10_rendered_block_witness :
  let body := py "Alice>Hello" ++ newline :: newline :: py "Bob<<Hi!" in
  let h := [mkElement (py "div") [] (Some body) []] in
  exists h',
    DialogueBlock.on_end (Some (py "title")) 0 h = Ok (tt, h') /\
    (exists last, h' !! 0 = Some (mkElement (py "div") [] (Some []) [1; 2; last])) /\
    reify 5 h' 0 =
    Some (Node (py "div") [] (Some [])
            [ Node (py "div") [(py "class", PStr (py "message-title"))] None [];
              Node (py "div") [(py "class", PStr (py "dialog-container"))] None
                (map row_tree (turns body));
              Node (py "br") [] None [] ]).
Proof.
  intros body h.
  apply (C10_rendered_block (Some (py "title")) 0 h
           (mkElement (py "div") [] (Some body) []) body
           eq_refl eq_refl eq_refl).
Defined.

Lemma angle_any l : all_in angle l -> all_in any l.
Proof.
  intros H. eapply Forall_impl; [exact H|]. intros x Hx. unfold angle, lit in Hx.
  apply orb_true_iff in Hx as [Hx|Hx]; apply N.eqb_eq in Hx; by subst.
Qed.



Lemma dialogue_block_result parent argument body (h : heap) :
  exists h',
    Host.dialogue_block parent argument body h = Ok (length h, h') /\
    reify 5 h' (length h) =
    Some (Node (py "div") [] (Some [])
            [ Node (py "div") [(py "class", PStr (py "message-title"))] None [];
              Node (py "div") [(py "class", PStr (py "dialog-container"))] None
                (map row_tree (turns body));
              Node (py "br") [] None [] ]).
Proof.
  unfold Host.dialogue_block, DialogueBlock.on_create, bind, SubElement,
    assign_text, ret.
  rewrite alter_fresh. cbn [alter list_alter].
  set (h1 := alter (add_child (length h)) parent h
             ++ [set_text (Some body) (fresh (py "div"))]).
  assert (Hb : h1 !! length h = Some (set_text (Some body) (fresh (py "div")))).
  { subst h1. set (G := add_child (length h)).
    rewrite <- (length_alter G h parent). by rewrite lookup_grown_0. }
  rewrite (on_end_result argument (length h) h1 _ body Hb eq_refl).
  eexists. split; [reflexivity|].
  by rewrite (rendered_tree h1 (length h) _ body Hb eq_refl).
Qed.





End DialogueTheorems.

(** ** Inline rules *)
Section InlineRuleFacts.

Lemma cat_lit_head a r s c :
  head (Re.run (Cat (Chr (lit a)) r) (a :: s) c) =
  (fun '(m, s', c') => (a :: m, s', c')) <$> head (Re.run r s c).
Proof.
  rewrite run_Cat, run_Chr. unfold lit at 1. rewrite N.eqb_refl. simpl.
  rewrite app_nil_r. apply head_bind_unit.
Qed.

Lemma cat_lit_fail a r x s c :
  x <> a -> Re.run (Cat (Chr (lit a)) r) (x :: s) c = [].
Proof.
  intros Hx. rewrite run_Cat, run_Chr. unfold lit.
  destruct (N.eqb_spec x a); [done|]. reflexivity.
Qed.

Lemma run_grp_lazy n p s c :
  Re.run (Grp n (Star false (Chr p))) s c =
  map (fun '(m, r) => (m, r, set_cap n m c)) (lazy_splits p s).
Proof.
  rewrite run_Grp, run_Star, star_lazy_list by lia.
  generalize (lazy_splits p s). intros l.
  induction l as [|[m r] l IH]; [done|]. simpl. f_equal. exact IH.
Qed.

(** A lazy group stops at the first place where what follows succeeds. *)
Lemma lazy_until {B} n p (K : hit -> list B) (r : str) c (v : str) :
  all_in p v ->
  forall pre,
    (forall u w, v = u ++ w -> w <> [] ->
       K (pre ++ u, w ++ r, set_cap n (pre ++ u) c) = []) ->
    head (map (fun '(m, s) => (pre ++ m, s, set_cap n (pre ++ m) c))
            (lazy_splits p (v ++ r)) ≫= K) =
    head (map (fun '(m, s) => ((pre ++ v) ++ m, s, set_cap n ((pre ++ v) ++ m) c))
            (lazy_splits p r) ≫= K).
Proof.
  induction 1 as [|x v Hx Hall IH]; intros pre HK.
  - simpl. by rewrite app_nil_r.
  - change ((x :: v) ++ r) with (x :: (v ++ r)).
    simpl lazy_splits. rewrite Hx, map_cons.
    rewrite head_bind_skip by (by apply (HK [] (x :: v))).
    rewrite map_map.
    replace (pre ++ x :: v) with ((pre ++ [x]) ++ v) by (by rewrite <- app_assoc).
    rewrite <- (IH (pre ++ [x])).
    + f_equal. f_equal. apply map_ext. intros [m s]. by rewrite <- !app_assoc.
    + intros u w -> Hw. rewrite <- app_assoc. by apply (HK (x :: u) w).
Qed.

Lemma lazy_group_head n p r2 (v r : str) c y :
  all_in p v ->
  (forall w c', w <> [] -> (exists u, v = u ++ w) -> Re.run r2 (w ++ r) c' = []) ->
  head (Re.run r2 r (set_cap n v c)) = Some y ->
  head (Re.run (Cat (Grp n (Star false (Chr p))) r2) (v ++ r) c) =
  Some (let '(m2, s2, c2) := y in (v ++ m2, s2, c2)).
Proof.
  intros Hall Hfail Hy. rewrite run_Cat, run_grp_lazy.
  rewrite (map_ext _ (fun '(m, s) => ([] ++ m, s, set_cap n ([] ++ m) c)))
    by (by intros [m s]).
  rewrite (lazy_until n p _ r c v Hall []).
  - destruct r as [|z r]; simpl lazy_splits; rewrite map_cons;
      apply head_bind_first; rewrite head_bind_unit; simpl;
      rewrite !app_nil_r; rewrite Hy; by destruct y as [[m2 s2] c2].
  - intros u w -> Hw. simpl. rewrite Hfail; [done|done|by exists u].
Qed.

Lemma all_in_true (v : str) : all_in (fun _ => true) v.
Proof. unfold all_in. by apply Forall_forall. Qed.

Lemma led_other (a : char) (v w : str) :
  a ∉ v -> w <> [] -> (exists u, v = u ++ w) ->
  exists x w', w = x :: w' /\ x <> a.
Proof.
  intros Hnot Hw [u ->]. destruct w as [|x w']; [done|].
  exists x, w'. split; [done|]. intros ->. apply Hnot.
  apply elem_of_app. right. by apply elem_of_cons; left.
Qed.

(** The first match of an inline rule of the bracket shape on its own
    syntax: the two texts are the groups. *)
Lemma bracket_head mid (v g post : str) c :
  (ord "]") ∉ v -> (ord ")") ∉ g ->
  head (Re.run (bracket_re mid) (bracketed mid v g ++ post) c) =
  Some (bracketed mid v g, post, set_cap 2 g (set_cap 1 v c)).
Proof.
  intros Hv Hg.
  set (r2 := Chr (lit (ord ")"))).
  set (r1 := Cat (Chr (lit (ord "]"))) (Cat (Chr (lit mid)) (Cat (Chr (lit (ord "(")))
               (Cat (Grp 2 (Star false (Chr (fun _ => true)))) r2)))).
  assert (H2 : forall c0,
    head (Re.run (Cat (Grp 2 (Star false (Chr (fun _ => true)))) r2)
            (g ++ (ord ")") :: post) c0)
    = Some (g ++ [(ord ")")], post, set_cap 2 g c0)).
  { intros c0.
    rewrite (lazy_group_head 2 _ r2 g ((ord ")") :: post) c0
               ([(ord ")")], post, set_cap 2 g c0)); [done|apply all_in_true| |].
    - intros w c' Hw Hu.
      destruct (led_other _ _ _ Hg Hw Hu) as (x & w' & -> & Hx).
      unfold r2. rewrite run_Chr. unfold lit. simpl.
      by destruct (N.eqb_spec x (ord ")")).
    - unfold r2. rewrite run_Chr. unfold lit. by simpl. }
  assert (H1 : forall c0,
    head (Re.run r1 ((ord "]") :: mid :: (ord "(") :: g ++ (ord ")") :: post) c0)
    = Some ((ord "]") :: mid :: (ord "(") :: g ++ [(ord ")")], post,
            set_cap 2 g c0)).
  { intros c0. unfold r1. rewrite !cat_lit_head, H2. done. }
  unfold bracket_re, bracketed. fold r2. fold r1.
  change (((ord "[") :: v ++ (ord "]") :: mid :: (ord "(") :: g ++ [(ord ")")]) ++ post)
    with ((ord "[") :: ((v ++ (ord "]") :: mid :: (ord "(") :: g ++ [(ord ")")]) ++ post)).
  rewrite cat_lit_head.
  replace ((v ++ (ord "]") :: mid :: (ord "(") :: g ++ [(ord ")")]) ++ post)
    with (v ++ ((ord "]") :: mid :: (ord "(") :: g ++ (ord ")") :: post))
    by (rewrite <- app_assoc; simpl; by rewrite <- app_assoc).
  rewrite (lazy_group_head 1 _ r1 v _ c
             ((ord "]") :: mid :: (ord "(") :: g ++ [(ord ")")], post,
              set_cap 2 g (set_cap 1 v c)) (all_in_true v));
    [done| |apply H1].
  intros w c' Hw Hu.
  destruct (led_other _ _ _ Hv Hw Hu) as (x & w' & -> & Hx).
  by apply cat_lit_fail.
Qed.

Lemma bracket_not_here mid x (s : str) c :
  x <> (ord "[") -> Re.run (bracket_re mid) (x :: s) c = [].
Proof. apply cat_lit_fail. Qed.

Lemma search_skip r (pre rest : str) :
  (forall w, w <> [] -> (exists u, pre = u ++ w) ->
     Re.run r (w ++ rest) no_caps = []) ->
  forall pos,
    search_from r pos (pre ++ rest) = search_from r (pos + length pre) rest.
Proof.
  induction pre as [|x pre IH]; intros Hfail pos.
  - simpl. by rewrite Nat.add_0_r.
  - pose proof (Hfail (x :: pre) ltac:(done) ltac:(by exists [])) as H0.
    simpl in *. rewrite H0.
    rewrite IH.
    + f_equal. lia.
    + intros w Hw [u ->]. apply Hfail; [done|]. by exists (x :: u).
Qed.

(** The search finds the rule's syntax behind any text that has no
    opening bracket. *)
Lemma bracket_search mid (pre v g post : str) :
  (ord "[") ∉ pre -> (ord "]") ∉ v -> (ord ")") ∉ g ->
  re_search (bracket_re mid) (pre ++ bracketed mid v g ++ post) =
  Some (mkMatch (length pre) (bracketed mid v g) [Some v; Some g]).
Proof.
  intros Hpre Hv Hg. unfold re_search. rewrite search_skip.
  - pose proof (bracket_head mid v g post no_caps Hv Hg) as Hhead.
    unfold bracketed at 1. simpl app at 1. simpl search_from.
    unfold bracketed in Hhead. simpl app in Hhead.
    destruct (Re.run (bracket_re mid) _ no_caps) as [|[[m r] c] tl]; [done|].
    simpl in Hhead. by injection Hhead as -> -> ->.
  - intros w Hw Hu.
    destruct (led_other _ _ _ Hpre Hw Hu) as (x & w' & -> & Hx).
    by apply bracket_not_here.
Qed.

Lemma any_not_mem (a : char) (l : str) :
  forallb (fun x => negb (N.eqb x a)) l = true -> a ∉ l.
Proof.
  intros H Hin. rewrite forallb_forall in H.
  apply list_elem_of_In in Hin. specialize (H a Hin).
  by rewrite N.eqb_refl in H.
Qed.

Lemma alter_end (f : Element -> Element) (h news : heap) (k : nat) :
  alter f (length h + k) (h ++ news) = h ++ alter f k news.
Proof. apply alter_app_r. Qed.

Lemma alter_end_0 (f : Element -> Element) (h news : heap) :
  alter f (length h) (h ++ news) = h ++ alter f 0 news.
Proof. rewrite <- (Nat.add_0_r (length h)) at 1. apply alter_app_r. Qed.

Lemma bracketed_length mid v g :
  length (bracketed mid v g) = length v + length g + 5.
Proof.
  unfold bracketed. simpl. rewrite length_app. simpl.
  rewrite length_app. simpl. lia.
Qed.

(** X1.  [Simple.handleMatch] on a match with one group or more adds one
    element to the store and touches no other: the rule's tag, no
    attribute, the text of group 1 ([None] when the group took no part);
    it returns the new element with the span of the match.  On a match of
    a pattern without groups it raises [IndexError]. *)
Theorem X1_simple_handleMatch (self : Simple.t) (start : nat) (w data : str)
    (h : heap) :
  (forall g1 more,
     Simple.handleMatch self (mkMatch start w (g1 :: more)) data h =
     Ok ((length h, start, start + length w),
         h ++ [mkElement (Simple.tag self) [] g1 []]))
  /\
  Simple.handleMatch self (mkMatch start w []) data h = Raise IndexError.
Proof.
  split; [|done]. intros g1 more.
  unfold Simple.handleMatch, bind, ret, lift, Element_new, assign_text, m_end.
  simpl. by rewrite alter_end_0.
Qed.

Lemma nest_result (self : Nest.t) start w g1 g2 more data (h : heap) :
  Nest.handleMatch self (mkMatch start w (g1 :: g2 :: more)) data h =
  Ok ((length h, start, start + length w),
      h ++ [mkElement (Nest.outer_tag self) [] g1 [length h + 1];
            mkElement (Nest.inner_tag self) [] g2 []]).
Proof.
  unfold Nest.handleMatch, bind, ret, lift, Element_new, SubElement,
    assign_text, m_end.
  simpl. rewrite !length_app. simpl.
  rewrite alter_end_0. simpl. rewrite <- app_assoc. simpl.
  rewrite alter_end_0. simpl. by rewrite alter_end.
Qed.

(** X2.  [Nest.handleMatch] on a match with two groups or more adds two
    elements and touches no other: the outer element with the text of
    group 1 and, as its only child, the inner element with the text of
    group 2; it returns the outer element with the span of the match.  With
    fewer than two groups it raises [IndexError]. *)
Theorem X2_nest_handleMatch (self : Nest.t) (start : nat) (w data : str)
    (h : heap) :
  (forall g1 g2 more,
     exists h',
       Nest.handleMatch self (mkMatch start w (g1 :: g2 :: more)) data h =
       Ok ((length h, start, start + length w), h') /\
       take (length h) h' = h /\ length h' = length h + 2 /\
       reify 2 h' (length h) =
       Some (Node (Nest.outer_tag self) [] g1
               [Node (Nest.inner_tag self) [] g2 []]))
  /\
  Nest.handleMatch self (mkMatch start w []) data h = Raise IndexError
  /\
  (forall g1,
     Nest.handleMatch self (mkMatch start w [g1]) data h = Raise IndexError).
Proof.
  split; [|split; [done|by intros g1]]. intros g1 g2 more.
  eexists. split; [apply nest_result|]. split; [|split].
  - by rewrite take_app_length.
  - rewrite length_app. simpl. lia.
  - rewrite reify_S, lookup_grown_0. simpl.
    by rewrite lookup_grown.
Qed.

(** X3.  The gloss rule.  In a text with no opening bracket before it, a
    bracketed base, a caret and a parenthesised gloss (a base without a
    closing bracket, a gloss without a closing parenthesis) are found by
    the search of [up], and [handleMatch] turns them into the [ruby]
    element with the base as text and one [rt] child with the gloss; the
    span it reports is exactly that of the syntax. *)
Theorem X3_gloss_rule (pre v g post : str) (h : heap) :
  (ord "[") ∉ pre -> (ord "]") ∉ v -> (ord ")") ∉ g ->
  exists m h',
    re_search (Nest.pattern up) (pre ++ bracketed (ord "^") v g ++ post) = Some m /\
    Nest.handleMatch up m (pre ++ bracketed (ord "^") v g ++ post) h =
    Ok ((length h, length pre, length pre + (length v + length g + 5)), h') /\
    reify 2 h' (length h) =
    Some (Node (py "ruby") [] (Some v) [Node (py "rt") [] (Some g) []]).
Proof.
  intros Hpre Hv Hg.
  change (Nest.pattern up) with (bracket_re (ord "^")).
  rewrite (bracket_search (ord "^") pre v g post Hpre Hv Hg).
  eexists. eexists. split; [reflexivity|].
  rewrite nest_result. rewrite bracketed_length. split; [reflexivity|].
  rewrite reify_S, lookup_grown_0. simpl. by rewrite lookup_grown.
Qed.

Lemma X3_gloss_rule_witness :
  exists m h',
    re_search (Nest.pattern up) (py "see [base]^(gloss) here") = Some m /\
    Nest.handleMatch up m (py "see [base]^(gloss) here") [] =
    Ok ((0, 4, 4 + (4 + 5 + 5)), h') /\
    reify 2 h' 0 =
    Some (Node (py "ruby") [] (Some (py "base"))
            [Node (py "rt") [] (Some (py "gloss")) []]).
Proof.
  apply (X3_gloss_rule (py "see ") (py "base") (py "gloss") (py " here") []);
    apply any_not_mem; vm_compute; reflexivity.
Defined.

(** X4.  The hover rule.  In a text with no opening bracket before it, a
    bracketed visible text, a hyphen and a parenthesised hidden text are
    found by the search of [hide], and [handleMatch] turns them into one
    [span] with the visible text as text and the hidden text as its
    [title]; the span it reports is exactly that of the syntax. *)
Theorem X4_hover_rule (pre v g post : str) (h : heap) :
  (ord "[") ∉ pre -> (ord "]") ∉ v -> (ord ")") ∉ g ->
  exists m,
    re_search (ID.pattern hide) (pre ++ bracketed (ord "-") v g ++ post) = Some m /\
    ID.handleMatch hide m (pre ++ bracketed (ord "-") v g ++ post) h =
    Ok ((length h, length pre, length pre + (length v + length g + 5)),
        h ++ [mkElement (py "span") [(py "title", PStr g)] (Some v) []]).
Proof.
  intros Hpre Hv Hg.
  change (ID.pattern hide) with (bracket_re (ord "-")).
  rewrite (bracket_search (ord "-") pre v g post Hpre Hv Hg).
  eexists. split; [reflexivity|].
  rewrite handleMatch_result. by rewrite bracketed_length.
Qed.

Lemma X4_hover_rule_witness :
  exists m,
    re_search (ID.pattern hide) (py "a [shown]-(hidden) b") = Some m /\
    ID.handleMatch hide m (py "a [shown]-(hidden) b") [] =
    Ok ((0, 2, 2 + (5 + 6 + 5)),
        [mkElement (py "span") [(py "title", PStr (py "hidden"))]
           (Some (py "shown")) []]).
Proof.
  apply (X4_hover_rule (py "a ") (py "shown") (py "hidden") (py " b") []);
    apply any_not_mem; vm_compute; reflexivity.
Defined.

(** X5.  The groups [ID.handleMatch] needs.  With no override it reads
    groups 1 and 2 and raises [IndexError] on a match with one group; with
    a string override it reads group 1 only, so a pattern with one group is
    enough, and the attribute is the string whatever the match. *)
Theorem X5_id_groups (pattern : regex) (tg prop lit_ : str) (start : nat)
    (w data : str) (g1 : option str) (h : heap) :
  ID.handleMatch (ID.mk pattern tg prop PNone) (mkMatch start w [g1]) data h
    = Raise IndexError
  /\
  ID.handleMatch (ID.mk pattern tg prop PNone) (mkMatch start w []) data h
    = Raise IndexError
  /\
  ID.handleMatch (ID.mk pattern tg prop (PStr lit_)) (mkMatch start w []) data h
    = Raise IndexError
  /\
  ID.handleMatch (ID.mk pattern tg prop (PStr lit_)) (mkMatch start w [g1]) data h
    = Ok ((length h, start, start + length w),
          h ++ [mkElement tg [(prop, PStr lit_)] g1 []]).
Proof.
  repeat split; try done.
  unfold ID.handleMatch, bind, ret, lift, Element_new, assign_text, set, m_end.
  simpl. by rewrite !alter_end_0.
Qed.

End InlineRuleFacts.

(** ** More on Syllabus *)
Section SyllabusMore.




















End SyllabusMore.

(** ** More on InlineCode *)
Section InlineCodeMore.

Lemma sigil_cases x : sigil x = true -> x = (ord "#") \/ x = (ord "-").
Proof.
  unfold sigil. intros H. apply orb_true_iff in H as [H|H];
    apply lit_true in H; auto.
Qed.

Lemma call_sigil_html variable x rest css_class :
  sigil x = true ->
  InlineCode.call variable (x :: rest) [] css_class =
  Ok (InlineCode.Html
        (if N.eqb x (ord "#") then span_html (first_line rest)
         else a_html (first_line rest))).
Proof.
  intros Hx. rewrite call_sigil by done.
  destruct (sigil_cases x Hx) as [-> | ->]; reflexivity.
Qed.

Lemma call_total d source css_class :
  exists s, InlineCode.call (Some d) source [] css_class = Ok (InlineCode.Html s).
Proof.
  destruct source as [|x rest].
  - rewrite call_no_sigil by done. eauto.
  - destruct (sigil x) eqn:Hx.
    + rewrite call_sigil_html by done. eauto.
    + rewrite call_no_sigil by done. eauto.
Qed.

(** X10.  When [__call__] fails and when it does not.  With a language
    tag the source goes to the host's highlighter and the variables are not
    looked at.  Without one and with a mapping, the result is always an
    HTML string: no exception and no [None], whatever the source, the empty
    one included.  With [None] for the mapping, a source without sigil
    raises [TypeError], and a source with a sigil is rendered as with any
    mapping. *)
Theorem X10_call_outcomes (source css_class : str) :
  (forall variable language,
     language <> [] ->
     InlineCode.call variable source language css_class =
     Ok (InlineCode.HostHighlight source language css_class))
  /\
  (forall d, exists s,
     InlineCode.call (Some d) source [] css_class = Ok (InlineCode.Html s))
  /\
  (not_led_by sigil source ->
   InlineCode.call None source [] css_class = Raise TypeError)
  /\
  (forall x rest d,
     source = x :: rest -> sigil x = true ->
     InlineCode.call None source [] css_class =
     InlineCode.call (Some d) source [] css_class).
Proof.
  split; [|split; [|split]].
  - intros variable language Hl. unfold InlineCode.call. by case_decide.
  - intros d. apply call_total.
  - intros Hled. by rewrite call_no_sigil.
  - intros x rest d -> Hx. by rewrite !call_sigil_html.
Qed.

Lemma X10_call_outcomes_witness :
  InlineCode.call None (py "print(1)") (py "python") (py "block") =
  Ok (InlineCode.HostHighlight (py "print(1)") (py "python") (py "block"))
  /\
  InlineCode.call None (py "name") [] (py "block") = Raise TypeError.
Proof.
  split.
  - apply (proj1 (X10_call_outcomes (py "print(1)") (py "block"))).
    discriminate.
  - apply (proj1 (proj2 (proj2 (X10_call_outcomes (py "name") (py "block"))))).
    reflexivity.
Defined.

(** X11.  A name that begins with [#] or [-] cannot be used as a
    variable: a source that begins with a sigil is rendered as the anchor
    or the link whatever the mapping holds, and never as the value the
    mapping has for it. *)
Theorem X11_sigil_shadows_variable (d : gmap str str) (x : char)
    (rest css_class v : str) :
  sigil x = true -> d !! (x :: rest) = Some v ->
  InlineCode.call (Some d) (x :: rest) [] css_class =
  InlineCode.call (Some ∅) (x :: rest) [] css_class
  /\
  InlineCode.call (Some d) (x :: rest) [] css_class
  <> Ok (InlineCode.Html (code_html v)).
Proof.
  intros Hx Hv. rewrite !call_sigil_html by done. split; [done|].
  destruct (sigil_cases x Hx) as [-> | ->]; simpl; discriminate.
Qed.

Lemma X11_sigil_shadows_variable_witness :
  InlineCode.call (Some (<[py "#top" := py "value"]> ∅)) (py "#top") [] []
  = InlineCode.call (Some ∅) (py "#top") [] []
  /\
  InlineCode.call (Some (<[py "#top" := py "value"]> ∅)) (py "#top") [] []
  <> Ok (InlineCode.Html (code_html (py "value"))).
Proof.
  apply (X11_sigil_shadows_variable (<[py "#top" := py "value"]> ∅)
           (ord "#") (py "top") [] (py "value")).
  - reflexivity.
  - vm_compute. reflexivity.
Defined.

(** X12.  The formatter [main] installs never fails on a span without
    language tag: a [variable] of [None] counts as the empty mapping, so
    every name without sigil and within one line comes back as it is, and
    with a mapping the outcome is that of [InlineCode]. *)
Theorem X12_main_formatter (variable : option (gmap str str))
    (source css_class : str) :
  (exists s,
     main_inline_format variable source [] css_class = Ok (InlineCode.Html s))
  /\
  main_inline_format None source [] css_class =
  InlineCode.call (Some ∅) source [] css_class
  /\
  (forall d, main_inline_format (Some d) source [] css_class =
             InlineCode.call (Some d) source [] css_class)
  /\
  (not_led_by sigil source -> newline ∉ source ->
   main_inline_format None source [] css_class =
   Ok (InlineCode.Html (code_html source))).
Proof.
  split; [apply call_total|]. split; [done|]. split; [done|].
  intros Hled Hline. unfold main_inline_format. simpl.
  rewrite call_no_sigil by done. rewrite first_line_whole by done.
  by rewrite lookup_empty.
Qed.

Lemma X12_main_formatter_witness :
  main_inline_format None (py "greeting") [] (py "block") =
  Ok (InlineCode.Html (code_html (py "greeting"))).
Proof.
  apply (proj2 (proj2 (proj2 (X12_main_formatter None (py "greeting")
                                (py "block"))))).
  - reflexivity.
  - apply greeting_one_line.
Defined.

End InlineCodeMore.

(** ** More on the dialogue store *)
Section DialogueMore.
Import DialogueParser.

Lemma row_nodes_length n d ch tx ty :
  length (row_nodes n (d, ch, tx, ty)) =
  match ty with Normal => 4 | Mental => 5 end.
Proof. by destruct ty. Qed.

(** X13.  One call of [line] adds one row and nothing else changes: the
    row becomes the last child of the container, after the rows already
    there; every other element of the store is as before; the row reads
    back as the left name cell, the content cell and the right name cell,
    where the speaker stands in the cell of the turn's side only and an
    inner thought is wrapped in its [p]; four elements are created, five
    for an inner thought. *)
Theorem X13_line_adds_row (self : DialogueParser.t) (d : direction)
    (ch tx : str) (ty : type_) (h : heap) (e : Element) :
  h !! box self = Some e ->
  exists h',
    line self d ch tx ty h = Ok (tt, h') /\
    h' !! box self =
      Some (mkElement (tag e) (attrib e) (text e) (children e ++ [length h])) /\
    (forall i, i < length h -> i <> box self -> h' !! i = h !! i) /\
    reify 3 h' (length h) = Some (row_tree (d, ch, tx, ty)) /\
    length h' = length h + match ty with Normal => 4 | Mental => 5 end.
Proof.
  intros Hbox. eexists. split; [apply line_result|]. split; [|split; [|split]].
  - by rewrite (lookup_kept _ _ _ _ e Hbox).
  - intros i Hi Hne. by apply lookup_other.
  - set (P := alter (add_child (length h)) (box self) h).
    assert (HP : length P = length h) by apply length_alter.
    rewrite <- HP, <- (app_nil_r (row_nodes _ _)). apply reify_row.
  - by rewrite length_app, length_alter, row_nodes_length.
Qed.

Lemma X13_line_adds_row_witness :
  exists h',
    line (mk None 1 0 2) Right_ (py "Bob") (py "Hm") Mental
      [fresh (py "div"); fresh (py "div"); fresh (py "div")] = Ok (tt, h') /\
    h' !! 2 = Some (mkElement (py "div") [] None [3]) /\
    (forall i, i < 3 -> i <> 2 ->
       h' !! i = [fresh (py "div"); fresh (py "div"); fresh (py "div")] !! i) /\
    reify 3 h' 3 = Some (row_tree (Right_, py "Bob", py "Hm", Mental)) /\
    length h' = 3 + 5.
Proof.
  apply (X13_line_adds_row (mk None 1 0 2) Right_ (py "Bob") (py "Hm") Mental
           [fresh (py "div"); fresh (py "div"); fresh (py "div")]
           (fresh (py "div"))).
  reflexivity.
Defined.

(** X14.  The constructor attaches two new [div] elements, bare, to the
    block, the title first and the container second, after the children
    the block had; it touches no other element, and neither the dialogue
    text nor the title it is given shows in the store. *)
Theorem X14_init_attaches (dialogue_ title_ : option str) (b : ref)
    (h : heap) (e : Element) :
  h !! b = Some e ->
  exists h',
    init dialogue_ title_ b h
      = Ok (mk dialogue_ (length h) b (length h + 1), h') /\
    h' !! b =
      Some (mkElement (tag e) (attrib e) (text e)
              (children e ++ [length h; length h + 1])) /\
    h' !! length h = Some (fresh (py "div")) /\
    h' !! (length h + 1) = Some (fresh (py "div")) /\
    (forall i, i < length h -> i <> b -> h' !! i = h !! i) /\
    length h' = length h + 2.
Proof.
  intros Hb. pose proof (lookup_lt_Some _ _ _ Hb) as Hlt.
  eexists. split; [by apply init_result|].
  set (F := add_children [length h; length h + 1]).
  assert (HF : length (alter F b h) = length h) by apply length_alter.
  repeat split.
  - by rewrite (lookup_kept _ _ _ _ e Hb).
  - rewrite <- HF. by rewrite lookup_grown_0.
  - rewrite <- HF. by rewrite lookup_grown.
  - intros i Hi Hne. by apply lookup_other.
  - rewrite length_app, HF. done.
Qed.

Lemma X14_init_attaches_witness :
  exists h',
    init (Some (py "A>B")) (Some (py "Title")) 0 [fresh (py "div")]
      = Ok (mk (Some (py "A>B")) 1 0 2, h') /\
    h' !! 0 = Some (mkElement (py "div") [] None [1; 2]) /\
    h' !! 1 = Some (fresh (py "div")) /\
    h' !! 2 = Some (fresh (py "div")) /\
    (forall i, i < 1 -> i <> 0 -> h' !! i = [fresh (py "div")] !! i) /\
    length h' = 3.
Proof.
  apply (X14_init_attaches (Some (py "A>B")) (Some (py "Title")) 0
           [fresh (py "div")] (fresh (py "div"))).
  reflexivity.
Defined.

(** X15.  A block element whose text is [None], as a new element has it,
    makes [on_end] raise [AttributeError]: the parser splits the text
    without a test for [None]. *)
Theorem X15_on_end_without_text (argument : option str) (b : ref) (h : heap)
    (e : Element) :
  h !! b = Some e -> text e = None ->
  DialogueBlock.on_end argument b h = Raise AttributeError.
Proof.
  intros Hb Htx. pose proof (lookup_lt_Some _ _ _ Hb) as Hlt.
  unfold DialogueBlock.on_end, bind, read_text. rewrite Hb, Htx.
  rewrite init_result by done.
  unfold call, bind, set, read_text, need_str, ret.
  cbn [title box block].
  rewrite alter_fresh, alter_grown.
  rewrite (lookup_kept _ _ _ _ e Hb). cbn [text add_children].
  by rewrite Htx.
Qed.

Lemma X15_on_end_without_text_witness :
  (block <- DialogueBlock.on_create 0;; DialogueBlock.on_end None block)
    [fresh (py "root")] = Raise AttributeError.
Proof.
  unfold bind, DialogueBlock.on_create, SubElement.
  apply (X15_on_end_without_text None 1 _ (fresh (py "div")));
    reflexivity.
Defined.

(** X16.  [on_end] changes the block and adds elements; it changes no
    other element of the store, and the block keeps its tag, its
    attributes and, before the three new ones, the children it had. *)
Theorem X16_on_end_frame (argument : option str) (b : ref) (h : heap)
    (e : Element) (body : str) :
  h !! b = Some e -> text e = Some body ->
  exists h',
    DialogueBlock.on_end argument b h = Ok (tt, h') /\
    (forall i, i < length h -> i <> b -> h' !! i = h !! i) /\
    (exists last,
       h' !! b = Some (mkElement (tag e) (attrib e) (Some [])
                         (children e ++ [length h; length h + 1; last])) /\
       length h' = last + 1).
Proof.
  intros Hb Htx. exists (rendered_store h b body).
  split; [by apply on_end_result with e|]. split.
  - intros i Hi Hne. unfold rendered_store. by apply lookup_other.
  - eexists. unfold rendered_store. split.
    + by rewrite (lookup_kept _ _ _ _ e Hb).
    + rewrite length_app, length_alter. simpl. rewrite length_app. simpl. lia.
Qed.

Lemma X16_on_end_frame_witness :
  let h := [mkElement (py "p") [] (Some (py "kept")) [];
            mkElement (py "div") [(py "id", PStr (py "d"))] (Some (py "A>B")) [0]] in
  exists h',
    DialogueBlock.on_end None 1 h = Ok (tt, h') /\
    (forall i, i < 2 -> i <> 1 -> h' !! i = h !! i) /\
    (exists last,
       h' !! 1 = Some (mkElement (py "div") [(py "id", PStr (py "d"))] (Some [])
                         [0; 2; 3; last]) /\
       length h' = last + 1).
Proof.
  intros h.
  apply (X16_on_end_frame None 1 h
           (mkElement (py "div") [(py "id", PStr (py "d"))] (Some (py "A>B")) [0])
           (py "A>B")); reflexivity.
Defined.

End DialogueMore.

(** ** More on dialogue lines *)
Section DialogueLinesMore.
Import DialogueParser.

Lemma split_nonempty sep s : split sep s <> [].
Proof.
  destruct s as [|x s]; simpl; [done|].
  destruct (decide (x = sep)); [done|]. by destruct (split sep s).
Qed.

Lemma split_app sep (a b : str) :
  split sep (a ++ sep :: b) = split sep a ++ split sep b.
Proof.
  induction a as [|x a IH]; simpl.
  - by destruct (decide (sep = sep)).
  - destruct (decide (x = sep)); [by rewrite IH|].
    rewrite IH. pose proof (split_nonempty sep a).
    by destruct (split sep a).
Qed.

Lemma turns_app (body1 body2 : str) :
  turns (body1 ++ newline :: body2) = turns body1 ++ turns body2.
Proof. unfold turns. by rewrite split_app, omap_app. Qed.

(** X17.  Turns follow the lines: the turns of two bodies joined by a line
    break are the turns of the first followed by the turns of the second,
    and the rendered container holds their rows in that order. *)
Theorem X17_turns_compose (parent : ref) (argument : option str)
    (body1 body2 : str) (h : heap) :
  turns (body1 ++ newline :: body2) = turns body1 ++ turns body2
  /\
  exists h',
    Host.dialogue_block parent argument (body1 ++ newline :: body2) h
      = Ok (length h, h') /\
    reify 5 h' (length h) =
    Some (Node (py "div") [] (Some [])
            [ Node (py "div") [(py "class", PStr (py "message-title"))] None [];
              Node (py "div") [(py "class", PStr (py "dialog-container"))] None
                (map row_tree (turns body1) ++ map row_tree (turns body2));
              Node (py "br") [] None [] ]).
Proof.
  split; [apply turns_app|].
  destruct (dialogue_block_result parent argument
              (body1 ++ newline :: body2) h) as (h' & Hrun & Htree).
  exists h'. split; [done|]. by rewrite turns_app, map_app in Htree.
Qed.

(** *** A separator at the end of the line *)

Lemma star_greedy_list p n : forall s c,
  length s < n ->
  star (Re.run (Chr p)) true n s c =
  map (fun '(m, r) => (m, r, c)) (rev (lazy_splits p s)).
Proof.
  induction n as [|n IH]; intros s c Hn; [lia|].
  rewrite star_S. unfold more_of. rewrite run_Chr.
  destruct s as [|x s]; [done|]. simpl lazy_splits.
  destruct (p x) eqn:Hp; [|done]. simpl in Hn. simpl.
  rewrite app_nil_r, IH by lia. rewrite map_app. simpl.
  f_equal. rewrite <- map_rev.
  generalize (rev (lazy_splits p s)). intros l.
  induction l as [|[m r] l IHl]; [done|]. simpl. f_equal. exact IHl.
Qed.

Lemma grp_plus_greedy_list n p x s c :
  p x = true ->
  Re.run (Grp n (Plus true (Chr p))) (x :: s) c =
  map (fun '(m, r) => (x :: m, r, set_cap n (x :: m) c)) (rev (lazy_splits p s)).
Proof.
  intros Hx. unfold Plus. rewrite run_Grp, run_Cat, run_Chr, Hx. simpl.
  rewrite app_nil_r, run_Star, star_greedy_list by lia.
  generalize (rev (lazy_splits p s)). intros l.
  induction l as [|[m r] l IH]; [done|]. simpl. f_equal. exact IH.
Qed.

(** A run of the class that ends the text: the greedy repetition first
    takes it all, then all but the last character. *)
Lemma rev_lazy_two p (m : str) x :
  all_in p m -> p x = true ->
  exists tl, rev (lazy_splits p (m ++ [x])) = (m ++ [x], []) :: (m, [x]) :: tl.
Proof.
  intros Hm Hx. induction Hm as [|y m Hy _ IH].
  - simpl. rewrite Hx. simpl. by exists [].
  - destruct IH as [tl IH].
    change ((y :: m) ++ [x]) with (y :: (m ++ [x])).
    simpl lazy_splits. rewrite Hy. simpl rev.
    rewrite <- map_rev, IH. simpl. eauto.
Qed.

Lemma after_speaker_trailing sep x c :
  sep <> [] -> all_in angle sep -> angle x = true ->
  head (Re.run after_speaker (sep ++ [x]) c) =
  Some (sep ++ [x], [], set_cap 3 [x] (set_cap 2 sep c)).
Proof.
  intros Hne Hsep Hx. unfold after_speaker. rewrite run_Cat.
  destruct Hsep as [|y sep Hy Hsep]; [done|].
  change ((y :: sep) ++ [x]) with (y :: (sep ++ [x])).
  rewrite (grp_plus_greedy_list 2 angle y _ _ Hy).
  destruct (rev_lazy_two angle sep x Hsep Hx) as [tl ->].
  rewrite !map_cons. rewrite head_bind_skip.
  - apply head_bind_first. rewrite head_bind_unit, grp_plus_greedy_head.
    assert (Hany : any x = true).
    { pose proof (angle_any [x] ltac:(by repeat constructor)) as H.
      by inversion H. }
    rewrite Hany. by simpl.
  - unfold Plus. by rewrite run_Grp, run_Cat, run_Chr.
Qed.

(** The match of a line that begins with a speaker, given the first match
    of what follows the speaker. *)
Lemma dialogue_after_speaker (a r : str) y :
  speaker a -> r <> [] ->
  head (Re.run after_speaker r (set_cap 1 a no_caps)) = Some y ->
  head (Re.run dialogue_re (a ++ r) no_caps) =
  Some (let '(m2, s2, c2) := y in (a ++ m2, s2, c2)).
Proof.
  intros (Ha & Hany & Hnone) Hr Hy.
  unfold dialogue_re. fold after_speaker. rewrite run_Cat.
  change (fun '(m1, s1, c1) =>
            '(m2, s2, c2) ← Re.run after_speaker s1 c1; [(m1 ++ m2, s2, c2)])
    with then_after.
  destruct Hany as [|x a Hx Hany]; [done|]. simpl in Hnone.
  change ((x :: a) ++ r) with (x :: (a ++ r)).
  rewrite (grp_plus_lazy_list 1 any x _ _ Hx).
  rewrite (map_ext _ (fun '(m, s) => ([x] ++ m, s, set_cap 1 ([x] ++ m) no_caps)))
    by (by intros [m s]).
  rewrite lazy_skip by done.
  destruct r as [|z r]; [done|]. simpl lazy_splits.
  rewrite map_cons. apply head_bind_first.
  unfold then_after. rewrite head_bind_unit.
  rewrite !app_nil_r. change ([x] ++ a) with (x :: a). rewrite Hy.
  by destruct y as [[m2 s2] c2].
Qed.

Lemma snoc_split (a u v : str) x y :
  a ++ [x] = u ++ y :: v -> v <> [] -> y ∈ a.
Proof.
  revert u. induction a as [|c a IH]; intros u Heq Hv.
  - destruct u as [|c u]; simpl in Heq.
    + injection Heq as _ <-. done.
    + injection Heq as _ Heq. by destruct u.
  - destruct u as [|c' u]; simpl in Heq.
    + injection Heq as -> _. by apply elem_of_cons; left.
    + injection Heq as _ Heq. apply elem_of_cons. right. by apply (IH u).
Qed.

Lemma dialogue_match_parts l m :
  re_match dialogue_re l = Some m ->
  exists m1 m2 m3 rest,
    l = (m1 ++ m2 ++ m3) ++ rest /\ m1 <> [] /\ m2 <> [] /\
    all_in angle m2 /\ m3 <> [].
Proof.
  unfold re_match.
  destruct (Re.run dialogue_re l no_caps) as [|[[w r] c] tl] eqn:Hrun; [done|].
  intros _.
  assert (Hin : (w, r, c) ∈ Re.run dialogue_re l no_caps)
    by (rewrite Hrun; by apply elem_of_cons; left).
  apply run_sound in Hin as [-> HM]. unfold dialogue_re in HM.
  inversion HM as [| |r1 r2 c0 m1 c1 m23 c3 H1 H23| | | | |]; subst.
  inversion H23 as [| |r1 r2 c0 m2 c2 m3 c3' H2 H3| | | | |]; subst.
  inversion H1 as [| | | | | | |n1 r1' ca ma ca' H1']; subst.
  inversion H2 as [| | | | | | |n2 r2' cb mb cb' H2']; subst.
  inversion H3 as [| | | | | | |n3 r3' cc mc cc' H3']; subst.
  apply Matches_plus_class in H1' as (Hm1 & _ & _).
  apply Matches_plus_class in H2' as (Hm2 & Hang & _).
  apply Matches_plus_class in H3' as (Hm3 & _ & _).
  by exists m1, m2, m3, r.
Qed.

(** X18.  A separator with nothing after it.  A speaker followed by a
    single [<] or [>] that ends the line is narration for [lines], the
    whole line being the text.  A speaker followed by a longer run that
    ends the line matches with the last character of the run as the
    utterance: on the line [A>>] [lines] makes the normal left turn in
    which [A] says [>], not an inner thought, and on [A<<] the normal right
    turn in which [A] says [<]. *)
Theorem X18_trailing_separator (self : DialogueParser.t) (a : str) :
  speaker a ->
  (forall x, angle x = true ->
     lines self (a ++ [x]) = line self Center [] (a ++ [x]) Normal)
  /\
  (forall sep x,
     sep <> [] -> all_in angle sep -> angle x = true ->
     re_match dialogue_re (a ++ sep ++ [x]) =
     Some (mkMatch 0 (a ++ sep ++ [x]) [Some a; Some sep; Some [x]]))
  /\
  lines self (a ++ py ">>") = line self Left_ a (py ">") Normal
  /\
  lines self (a ++ py "<<") = line self Right_ a (py "<") Normal.
Proof.
  intros Ha.
  assert (Hmatch : forall sep x,
    sep <> [] -> all_in angle sep -> angle x = true ->
    re_match dialogue_re (a ++ sep ++ [x]) =
    Some (mkMatch 0 (a ++ sep ++ [x]) [Some a; Some sep; Some [x]])).
  { intros sep x Hne Hsep Hx. unfold re_match.
    pose proof (dialogue_after_speaker a (sep ++ [x]) _ Ha
                  ltac:(by destruct sep)
                  (after_speaker_trailing sep x _ Hne Hsep Hx)) as Hhead.
    destruct (Re.run dialogue_re (a ++ sep ++ [x]) no_caps)
      as [|[[m r] c] tl]; [done|].
    simpl in Hhead. by injection Hhead as -> -> ->. }
  assert (Hnil : forall s : str, a ++ s <> []).
  { intros s. destruct Ha as (Hne & _). by destruct a. }
  split; [|split; [exact Hmatch|split]].
  - intros x Hx. unfold lines. case_decide as Hl; [by apply Hnil in Hl|].
    destruct (re_match dialogue_re (a ++ [x])) as [m|] eqn:Hm; [|done].
    exfalso.
    destruct (dialogue_match_parts _ _ Hm)
      as (m1 & m2 & m3 & rest & Heq & Hm1 & Hm2 & Hang & Hm3).
    destruct Ha as (Hne & _ & Hnone).
    destruct a as [|a0 a]; [done|]. destruct m1 as [|b0 m1]; [done|].
    destruct Hang as [|y m2 Hy _]; [done|].
    rewrite <- !app_assoc in Heq. simpl in Heq. injection Heq as _ Heq.
    assert (Hin : y ∈ a).
    { apply (snoc_split a m1 (m2 ++ m3 ++ rest) x y Heq).
      destruct m3; [done|]. by destruct m2. }
    simpl in Hnone. unfold none_in in Hnone. rewrite Forall_forall in Hnone.
    specialize (Hnone _ Hin). congruence.
  - unfold lines. case_decide as Hl; [by apply Hnil in Hl|].
    change (py ">>") with (py ">" ++ [ord ">"]).
    rewrite Hmatch; [done|discriminate|by repeat constructor|done].
  - unfold lines. case_decide as Hl; [by apply Hnil in Hl|].
    change (py "<<") with (py "<" ++ [ord "<"]).
    rewrite Hmatch; [done|discriminate|by repeat constructor|done].
Qed.

Lemma alice_speaks : speaker (py "Alice").
Proof. split; [discriminate|]. split; by repeat constructor. Qed.

Lemma X18_trailing_separator_witness :
  lines (mk None 1 0 2) (py "Alice>")
    = line (mk None 1 0 2) Center [] (py "Alice>") Normal /\
  lines (mk None 1 0 2) (py "Alice>>")
    = line (mk None 1 0 2) Left_ (py "Alice") (py ">") Normal.
Proof.
  split.
  - apply (proj1 (X18_trailing_separator (mk None 1 0 2) (py "Alice")
                    alice_speaks) (ord ">")).
    reflexivity.
  - apply (proj1 (proj2 (proj2
             (X18_trailing_separator (mk None 1 0 2) (py "Alice")
                alice_speaks)))).
Defined.

End DialogueLinesMore.
